(** * Continuation control of a remote agent session

    A shallow embedding of [cli/src/claude/utils/smartContinue.ts] and of the
    event loop of [cli/src/claude/claudeRemote.ts], followed by the properties
    of the continuation policy, the provider selector, the completion
    assessor and the checkpoint loader.

    Conventions.
    - A JavaScript string is a [string] of bytes: the UTF-8 encoding of its
      text, an unpaired surrogate taking three bytes as any other code unit
      above U+07FF does.  JavaScript counts a string in UTF-16 code units,
      and so does the model where the code counts ([Js.utf16_length],
      [Js.slice_last]).  A [number] is a [Z] (fractions are left out); the
      two counters of the loop, which start at 0 and are only incremented
      or reset, are [nat].
    - [undefined] is [None]; a value read out of parsed JSON is a [json].
    - [process.env] is a finite map from variable names to strings.
    - Functions of the JavaScript runtime that the code calls but does not
      define ([String.prototype.trim], [toUpperCase], [JSON.parse],
      [path.join]) are the fields of the class [JsRuntime]; every theorem
      holds for every runtime.
    - An exception is a value of [Err]; code that can throw returns a
      [Result]. *)

From stdpp Require Import gmap strings list pretty.
From Stdlib Require Import ZArith.

Local Open Scope Z_scope.
Set Warnings "-register-all".

(** ** JavaScript values and helpers *)

Module Js.

Inductive Err : Type :=
| AbortError
| JsError (name message : string).

Inductive Result (A : Type) : Type :=
| Ok (a : A)
| Throw (e : Err).
Arguments Ok {A} a.
Arguments Throw {A} e.

Definition bind {A B : Type} (m : Result A) (k : A → Result B) : Result B :=
  match m with
  | Ok a => k a
  | Throw e => Throw e
  end.

#[global] Instance Result_ret : MRet Result := @Ok.
#[global] Instance Result_bind : MBind Result := λ A B k m, bind m k.

(** [try { body } catch { handler }] *)
Definition try_catch {A : Type} (body : Result A) (handler : Err → Result A) : Result A :=
  match body with
  | Ok a => Ok a
  | Throw e => handler e
  end.

Inductive json : Type :=
| JNull
| JBool (b : bool)
| JNum (n : Z)
| JStr (s : string)
| JArr (items : list json)
| JObj (fields : list (string * json)).

Definition LF : string := String (Ascii.ascii_of_nat 10) EmptyString.

(** Truthiness of a string: every string but the empty one. *)
Definition truthy (s : string) : bool := negb (String.eqb s "").

(** Truthiness of a value that is [undefined] or parsed JSON. *)
Definition js_truthy (v : option json) : bool :=
  match v with
  | None | Some JNull => false
  | Some (JBool b) => b
  | Some (JNum n) => negb (n =? 0)
  | Some (JStr s) => truthy s
  | Some (JArr _) | Some (JObj _) => true
  end.

(** [a || b] where [a] is a string. *)
Definition or_str (a b : string) : string := if truthy a then a else b.

(** [a || b] where [a] is a string or [undefined]. *)
Definition or_else (a : option string) (b : string) : string :=
  match a with
  | Some s => or_str s b
  | None => b
  end.

(** [a ?? b] *)
Definition nullish (a : option json) (b : json) : json :=
  match a with
  | None | Some JNull => b
  | Some v => v
  end.

Fixpoint assoc (k : string) (fields : list (string * json)) : option json :=
  match fields with
  | [] => None
  | (k', v) :: rest => if String.eqb k k' then Some v else assoc k rest
  end.

(** [v.k] for a [v] that is neither [null] nor [undefined] and a name [k]
    that no built-in prototype defines: only an object can have it. *)
Definition prop (v : json) (k : string) : option json :=
  match v with
  | JObj fields => assoc k fields
  | _ => None
  end.

(** [v?.k] *)
Definition oprop (v : option json) (k : string) : option json :=
  match v with
  | None | Some JNull => None
  | Some w => prop w k
  end.

(** [v?.[0]]: the first element of an array, the first character of a
    string, the property ["0"] of an object. *)
Definition oindex0 (v : option json) : option json :=
  match v with
  | None | Some JNull => None
  | Some (JArr items) => head items
  | Some (JStr (String c _)) => Some (JStr (String c EmptyString))
  | Some (JObj fields) => assoc "0" fields
  | Some _ => None
  end.

(** [s.startsWith(p)] *)
Definition startsWith (s p : string) : bool := String.prefix p s.

(** [s.includes(m)] *)
Fixpoint includes (s m : string) : bool :=
  String.prefix m s ||
  match s with
  | EmptyString => false
  | String _ s' => includes s' m
  end.

(** [l.some(p)] *)
Definition some {A : Type} (p : A → bool) (l : list A) : bool := existsb p l.

(** [l.join(sep)] on an array of strings *)
Fixpoint join (sep : string) (l : list string) : string :=
  match l with
  | [] => ""
  | [x] => x
  | x :: rest => x +:+ sep +:+ join sep rest
  end.

(** A byte [10xxxxxx] continues the character begun before it. *)
Definition is_continuation (c : Ascii.ascii) : bool :=
  match c with
  | Ascii.Ascii _ _ _ _ _ _ b6 b7 => b7 && negb b6
  end.

(** A byte [1111xxxx] begins a character of four bytes, which JavaScript
    holds as a pair of surrogates. *)
Definition is_lead4 (c : Ascii.ascii) : bool :=
  match c with
  | Ascii.Ascii _ _ _ _ b4 b5 b6 b7 => b7 && b6 && b5 && b4
  end.

(** The UTF-16 code units a byte stands for: those of the character it
    begins. *)
Definition code_units (c : Ascii.ascii) : nat :=
  if is_continuation c then 0 else if is_lead4 c then 2 else 1.

(** [s.length] *)
Fixpoint utf16_length (s : string) : nat :=
  match s with
  | EmptyString => 0
  | String c rest => code_units c + utf16_length rest
  end.

Fixpoint skip_continuation (s : string) : string :=
  match s with
  | EmptyString => EmptyString
  | String c rest => if is_continuation c then skip_continuation rest else s
  end.

(** What is left of a character of four bytes when its first code unit is
    cut off: the low surrogate [0xDC00 + (code point mod 0x400)], whose
    three bytes are [0xED], [0xB0 + (third byte mod 16)] and the fourth
    byte.  [rest] is the string after the first of the four bytes.  (The
    last case is for bytes that encode no text.) *)
Definition low_surrogate (rest : string) : string :=
  match rest with
  | String b1 (String (Ascii.Ascii a0 a1 a2 a3 a4 a5 a6 a7 as b2) (String b3 after)) =>
      if is_continuation b1 && is_continuation b2 && is_continuation b3 then
        String (Ascii.Ascii true false true true false true true true)
          (String (Ascii.Ascii a0 a1 a2 a3 true true false true) (String b3 after))
      else
        String (Ascii.Ascii true false true true false true true true)
          (String (Ascii.Ascii false false false false true true false true)
             (String (Ascii.Ascii false false false false false false false true) rest))
  | _ =>
      String (Ascii.Ascii true false true true false true true true)
        (String (Ascii.Ascii false false false false true true false true)
           (String (Ascii.Ascii false false false false false false false true) rest))
  end.

(** [s] without its first [k] code units. *)
Fixpoint drop_units (k : nat) (s : string) {struct s} : string :=
  match k with
  | O => skip_continuation s
  | S k' =>
      match s with
      | EmptyString => EmptyString
      | String c rest =>
          if is_continuation c then drop_units (S k') rest
          else if is_lead4 c then
            match k' with
            | O => low_surrogate rest
            | S k'' => drop_units k'' rest
            end
          else drop_units k' rest
      end
  end.

(** [s.slice(-n)]: the last [n] code units of [s], all of [s] when it has
    no more, and also when [n] is 0, since [-0] is [0]. *)
Definition slice_last (n : nat) (s : string) : string :=
  if (n =? 0)%nat || (utf16_length s <=? n)%nat then s
  else drop_units (utf16_length s - n) s.

(** The runtime functions the code relies on. [JSON_parse] is [None] where
    [JSON.parse] throws a [SyntaxError]. *)
Class JsRuntime : Type := {
  trim : string → string;
  toUpperCase : string → string;
  JSON_parse : string → option json;
  path_join : list string → string;
}.

(** The file system as [node:fs] shows it to the code: a path names nothing,
    names something that cannot be read as a file, or names a file. *)
Inductive FileState : Type :=
| Missing
| Unreadable
| Contents (text : string).

Definition existsSync (fs : string → FileState) (path : string) : bool :=
  match fs path with
  | Missing => false
  | _ => true
  end.

Definition readFileSync (fs : string → FileState) (path : string) : Result string :=
  match fs path with
  | Contents text => Ok text
  | Missing => Throw (JsError "Error" "ENOENT")
  | Unreadable => Throw (JsError "Error" "EACCES")
  end.

End Js.

(** ** The messages of the agent SDK, as the code reads them *)

Module Sdk.

(** A content block: [type], [text] and [tool_use_id], each field present or
    not. *)
Record ContentBlock : Type := {
  block_type : string;
  block_text : option string;
  block_tool_use_id : option string;
}.

Inductive UserContent : Type :=
| ContentText (text : string)
| ContentBlocks (blocks : list ContentBlock).

(** One constructor per value of [message.type] that the code tests. *)
Inductive SDKMessage : Type :=
| AssistantMessage (content : option (list ContentBlock))
| SystemMessage (subtype : string) (session_id : option string)
| ResultMessage (subtype : string) (num_turns : Z)
| UserMessage (role : string) (content : UserContent)
| OtherMessage (type : string).

End Sdk.

(** ** smartContinue.ts *)

Module SmartContinue.
Import Js Sdk.

Inductive Provider : Type := anthropic | openai | gemini.

#[global] Instance Provider_eq_dec : EqDecision Provider.
Proof. solve_decision. Defined.

(** The string a provider is written as in the source. *)
Definition provider_name (p : Provider) : string :=
  match p with
  | anthropic => "anthropic"
  | openai => "openai"
  | gemini => "gemini"
  end.

Record SmartContinueConfig : Type := {
  enabled : bool;
  model : string;
  maxRetries : Z;
  bufferSize : Z;
  completionMarker : string;
  timeoutMs : Z;
  continueMessage : string;
  provider : option Provider;
}.

Definition DEFAULT_SMART_CONTINUE : SmartContinueConfig := {|
  enabled := true;
  model := "claude-haiku-4-5-20251001";
  maxRetries := 2;
  bufferSize := 5;
  completionMarker := "[CHECKPOINT_COMPLETE]";
  timeoutMs := 8000;
  continueMessage := "好的，请你继续来写。你在完成任务之前停下了，请从你停止的地方继续。";
  provider := None;
|}.

Definition ASSESSMENT_PROMPT : string :=
  "You are a task completion detector. Given the recent AI assistant output below, determine if the task is DONE or NOT_DONE."
  +:+ LF +:+ LF +:+ "Rules:" +:+ LF
  +:+ "- DONE = explicit completion summary, all steps finished, or user-facing final report" +:+ LF
  +:+ "- NOT_DONE = mid-step, partial work, no conclusion, or stopped abruptly" +:+ LF +:+ LF
  +:+ "Respond with exactly one word: DONE or NOT_DONE".

Definition DEFAULT_MODELS (p : Provider) : string :=
  match p with
  | anthropic => "claude-haiku-4-5-20251001"
  | openai => "gpt-4o-mini"
  | gemini => "gemini-2.0-flash"
  end.

Record ProviderConfig : Type := {
  pc_provider : string;
  pc_apiKey : string;
  pc_baseUrl : string;
  pc_model : string;
}.

(** [if (c) { ... return r } rest]: the block returns [r] when it is [Some],
    and control reaches [rest] otherwise. *)
Definition or_continue {A : Type} (block : option A) (rest : option A) : option A :=
  match block with
  | Some r => Some r
  | None => rest
  end.

Definition detectProvider (env : gmap string string) (config : SmartContinueConfig)
    : option ProviderConfig :=
  or_continue
    (if bool_decide (provider config = Some anthropic) then
       let apiKey := or_else (env !! "ANTHROPIC_AUTH_TOKEN") (or_else (env !! "ANTHROPIC_API_KEY") "") in
       if truthy apiKey then
         Some {| pc_provider := "anthropic";
                 pc_apiKey := apiKey;
                 pc_baseUrl := or_else (env !! "ANTHROPIC_BASE_URL") "https://api.anthropic.com";
                 pc_model := or_str (model config) (DEFAULT_MODELS anthropic) |}
       else None
     else None) $
  or_continue
    (if bool_decide (provider config = Some openai) then
       let apiKey := or_else (env !! "OPENAI_API_KEY") "" in
       if truthy apiKey then
         Some {| pc_provider := "openai";
                 pc_apiKey := apiKey;
                 pc_baseUrl := or_else (env !! "OPENAI_BASE_URL") "https://api.openai.com";
                 pc_model := or_str (model config) (DEFAULT_MODELS openai) |}
       else None
     else None) $
  or_continue
    (if bool_decide (provider config = Some gemini) then
       let apiKey := or_else (env !! "GEMINI_API_KEY") (or_else (env !! "GOOGLE_API_KEY") "") in
       if truthy apiKey then
         Some {| pc_provider := "gemini";
                 pc_apiKey := apiKey;
                 pc_baseUrl := "https://generativelanguage.googleapis.com";
                 pc_model := or_str (model config) (DEFAULT_MODELS gemini) |}
       else None
     else None) $
  (* Auto-detect: try each provider in order *)
  let anthropicKey := or_else (env !! "ANTHROPIC_AUTH_TOKEN") (or_else (env !! "ANTHROPIC_API_KEY") "") in
  or_continue
    (if truthy anthropicKey then
       Some {| pc_provider := "anthropic";
               pc_apiKey := anthropicKey;
               pc_baseUrl := or_else (env !! "ANTHROPIC_BASE_URL") "https://api.anthropic.com";
               pc_model := if startsWith (model config) "claude" then model config
                           else DEFAULT_MODELS anthropic |}
     else None) $
  let openaiKey := or_else (env !! "OPENAI_API_KEY") "" in
  or_continue
    (if truthy openaiKey then
       Some {| pc_provider := "openai";
               pc_apiKey := openaiKey;
               pc_baseUrl := or_else (env !! "OPENAI_BASE_URL") "https://api.openai.com";
               pc_model := if startsWith (model config) "gpt" then model config
                           else DEFAULT_MODELS openai |}
     else None) $
  let geminiKey := or_else (env !! "GEMINI_API_KEY") (or_else (env !! "GOOGLE_API_KEY") "") in
  or_continue
    (if truthy geminiKey then
       Some {| pc_provider := "gemini";
               pc_apiKey := geminiKey;
               pc_baseUrl := "https://generativelanguage.googleapis.com";
               pc_model := if startsWith (model config) "gemini" then model config
                           else DEFAULT_MODELS gemini |}
     else None) $
  None.


(** The vocabulary of the statements about [detectProvider]: per provider,
    the credential it reads, its base URL, and the prefix its model names
    carry. *)
Definition credential (env : gmap string string) (p : Provider) : string :=
  match p with
  | anthropic => or_else (env !! "ANTHROPIC_AUTH_TOKEN") (or_else (env !! "ANTHROPIC_API_KEY") "")
  | openai => or_else (env !! "OPENAI_API_KEY") ""
  | gemini => or_else (env !! "GEMINI_API_KEY") (or_else (env !! "GOOGLE_API_KEY") "")
  end.

Definition base_url (env : gmap string string) (p : Provider) : string :=
  match p with
  | anthropic => or_else (env !! "ANTHROPIC_BASE_URL") "https://api.anthropic.com"
  | openai => or_else (env !! "OPENAI_BASE_URL") "https://api.openai.com"
  | gemini => "https://generativelanguage.googleapis.com"
  end.

Definition model_prefix (p : Provider) : string :=
  match p with
  | anthropic => "claude"
  | openai => "gpt"
  | gemini => "gemini"
  end.

(** The environment variables [detectProvider] reads. *)
Definition provider_variables : list string :=
  ["ANTHROPIC_AUTH_TOKEN"; "ANTHROPIC_API_KEY"; "ANTHROPIC_BASE_URL";
   "OPENAI_API_KEY"; "OPENAI_BASE_URL"; "GEMINI_API_KEY"; "GOOGLE_API_KEY"].

(** [{ ...config, provider }] *)
Definition with_provider (p : option Provider) (config : SmartContinueConfig)
    : SmartContinueConfig :=
  {| enabled := enabled config; model := model config; maxRetries := maxRetries config;
     bufferSize := bufferSize config; completionMarker := completionMarker config;
     timeoutMs := timeoutMs config; continueMessage := continueMessage config;
     provider := p |}.

(** Whether the provider the configuration names has its credential. *)
Definition explicit_choice (env : gmap string string) (config : SmartContinueConfig) : bool :=
  match provider config with
  | Some p => truthy (credential env p)
  | None => false
  end.

(** *** The provider clients *)

Record Request : Type := {
  req_url : string;
  req_headers : list (string * string);
  req_body : json;
  req_timeout : Z;
}.

(** What [fetch] followed by [resp.json()] can do: reject (network failure,
    or the deadline of [AbortSignal.timeout]), or answer with a status and a
    body that parses ([Some]) or not ([None]). *)
Inductive FetchResult : Type :=
| FetchReject (e : Err)
| FetchResponse (ok : bool) (status : Z) (body : option json).

Section WithRuntime.
Context `{JsRuntime}.

(** The end of each optional chain, [text?.trim().toUpperCase() ?? '']:
    a missing text gives [''], a string is normalised, and anything else has
    no [trim] method, so the call throws a [TypeError]. *)
Definition normalized (text : option json) : Result string :=
  match text with
  | None | Some JNull => Ok ""
  | Some (JStr s) => Ok (toUpperCase (trim s))
  | Some _ => Throw (JsError "TypeError" "trim is not a function")
  end.

(** [data.k] on the parsed body: reading a property of [null] throws. *)
Definition body_prop (data : json) (k : string) : Result (option json) :=
  match data with
  | JNull => Throw (JsError "TypeError" "Cannot read properties of null")
  | _ => Ok (prop data k)
  end.

Definition parsed_body (body : option json) : Result json :=
  match body with
  | Some data => Ok data
  | None => Throw (JsError "SyntaxError" "Unexpected token")
  end.

Definition callAnthropic (fetch : Request → FetchResult)
    (pc : ProviderConfig) (prompt : string) (timeoutMs : Z) : Result string :=
  match fetch {| req_url := pc_baseUrl pc +:+ "/v1/messages";
                 req_headers := [("Content-Type", "application/json");
                                 ("x-api-key", pc_apiKey pc);
                                 ("anthropic-version", "2023-06-01")];
                 req_body := JObj [("model", JStr (pc_model pc));
                                   ("max_tokens", JNum 10);
                                   ("messages", JArr [JObj [("role", JStr "user");
                                                            ("content", JStr prompt)]])];
                 req_timeout := timeoutMs |} with
  | FetchReject e => Throw e
  | FetchResponse ok status body =>
      if negb ok then Throw (JsError "Error" ("Anthropic API returned " +:+ pretty status))
      else
        data ← parsed_body body;
        content ← body_prop data "content";
        normalized (oprop (oindex0 content) "text")
  end.

Definition callOpenAI (fetch : Request → FetchResult)
    (pc : ProviderConfig) (prompt : string) (timeoutMs : Z) : Result string :=
  match fetch {| req_url := pc_baseUrl pc +:+ "/v1/chat/completions";
                 req_headers := [("Content-Type", "application/json");
                                 ("Authorization", "Bearer " +:+ pc_apiKey pc)];
                 req_body := JObj [("model", JStr (pc_model pc));
                                   ("max_tokens", JNum 10);
                                   ("messages", JArr [JObj [("role", JStr "user");
                                                            ("content", JStr prompt)]])];
                 req_timeout := timeoutMs |} with
  | FetchReject e => Throw e
  | FetchResponse ok status body =>
      if negb ok then Throw (JsError "Error" ("OpenAI API returned " +:+ pretty status))
      else
        data ← parsed_body body;
        choices ← body_prop data "choices";
        normalized (oprop (oprop (oindex0 choices) "message") "content")
  end.

Definition callGemini (fetch : Request → FetchResult)
    (pc : ProviderConfig) (prompt : string) (timeoutMs : Z) : Result string :=
  let url := pc_baseUrl pc +:+ "/v1beta/models/" +:+ pc_model pc
             +:+ ":generateContent?key=" +:+ pc_apiKey pc in
  match fetch {| req_url := url;
                 req_headers := [("Content-Type", "application/json")];
                 req_body := JObj [("contents", JArr [JObj [("parts", JArr [JObj [("text", JStr prompt)]])]]);
                                   ("generationConfig", JObj [("maxOutputTokens", JNum 10)])];
                 req_timeout := timeoutMs |} with
  | FetchReject e => Throw e
  | FetchResponse ok status body =>
      if negb ok then Throw (JsError "Error" ("Gemini API returned " +:+ pretty status))
      else
        data ← parsed_body body;
        candidates ← body_prop data "candidates";
        normalized (oprop (oindex0 (oprop (oprop (oindex0 candidates) "content") "parts")) "text")
  end.

(** *** The checkpoint loader *)

(** The object [loadCheckpointConfig] builds. Its declared type is
    [SmartContinueConfig], but the fields taken from [thread.json] are
    whatever the document holds: nothing checks them. *)
Record LoadedConfig : Type := {
  l_enabled : json;
  l_model : json;
  l_maxRetries : json;
  l_bufferSize : json;
  l_completionMarker : json;
  l_timeoutMs : json;
  l_continueMessage : json;
  l_provider : option json;
}.

(** A typed configuration seen as such an object. *)
Definition as_loaded (c : SmartContinueConfig) : LoadedConfig := {|
  l_enabled := JBool (enabled c);
  l_model := JStr (model c);
  l_maxRetries := JNum (maxRetries c);
  l_bufferSize := JNum (bufferSize c);
  l_completionMarker := JStr (completionMarker c);
  l_timeoutMs := JNum (timeoutMs c);
  l_continueMessage := JStr (continueMessage c);
  l_provider := (λ p, JStr (provider_name p)) <$> provider c;
|}.

(** The two paths of lines 174 and 179. *)
Definition currentFile (cwd : string) : string :=
  path_join [cwd; ".checkpoints"; "current"].

Definition threadJsonPath (cwd threadId : string) : string :=
  path_join [cwd; ".checkpoints"; "threads"; threadId; "thread.json"].

Definition loadCheckpointConfig (fs : string → FileState) (cwd : string)
    : option LoadedConfig :=
  let body : Result (option LoadedConfig) :=
    if negb (existsSync fs (currentFile cwd)) then Ok None else
    text ← readFileSync fs (currentFile cwd);
    let threadId := trim text in
    if negb (truthy threadId) then Ok None else
    found ←
      (if existsSync fs (threadJsonPath cwd threadId) then
         doc ← readFileSync fs (threadJsonPath cwd threadId);
         threadData ← parsed_body (JSON_parse doc);
         let sc := oprop (oprop (Some threadData) "config") "smartContinue" in
         match sc with
         | Some scv =>
             if js_truthy sc then
               Ok (Some {|
                 l_enabled := nullish (prop scv "enabled") (JBool (enabled DEFAULT_SMART_CONTINUE));
                 l_model := nullish (prop scv "model") (JStr (model DEFAULT_SMART_CONTINUE));
                 l_maxRetries := nullish (prop scv "maxRetries") (JNum (maxRetries DEFAULT_SMART_CONTINUE));
                 l_bufferSize := nullish (prop scv "bufferSize") (JNum (bufferSize DEFAULT_SMART_CONTINUE));
                 l_completionMarker :=
                   nullish (prop scv "completionMarker") (JStr (completionMarker DEFAULT_SMART_CONTINUE));
                 l_timeoutMs := nullish (prop scv "timeoutMs") (JNum (timeoutMs DEFAULT_SMART_CONTINUE));
                 l_continueMessage :=
                   nullish (prop scv "continueMessage") (JStr (continueMessage DEFAULT_SMART_CONTINUE));
                 l_provider := prop scv "provider";
               |})
             else Ok None
         | None => Ok None
         end
       else Ok None);
    match found with
    | Some loaded => Ok (Some loaded)
    | None => Ok (Some (as_loaded DEFAULT_SMART_CONTINUE))
    end in
  match try_catch body (λ _, Ok None) with
  | Ok r => r
  | Throw _ => None
  end.

(** *** Assistant text and the completion assessor *)

Definition extractAssistantText (message : SDKMessage) : option string :=
  match message with
  | AssistantMessage content =>
      let texts :=
        omap (λ block,
                if String.eqb (block_type block) "text" then
                  match block_text block with
                  | Some t => if truthy t then Some t else None
                  | None => None
                  end
                else None)
             (default [] content) in
      if (0 <? Z.of_nat (length texts)) then Some (join LF texts) else None
  | _ => None
  end.

Definition callers (fetch : Request → FetchResult) (name : string)
    : option (ProviderConfig → string → Z → Result string) :=
  if String.eqb name "anthropic" then Some (callAnthropic fetch)
  else if String.eqb name "openai" then Some (callOpenAI fetch)
  else if String.eqb name "gemini" then Some (callGemini fetch)
  else None.

(** What a client asks and where it reads the answer: the request each
    client passes to [fetch] (lines 118-131, 138-150 and 157-166), and the
    place in the parsed body where it looks for the text (lines 134, 153 and
    169). *)
Definition provider_request (p : Provider) (pc : ProviderConfig) (prompt : string)
    (timeoutMs : Z) : Request :=
  match p with
  | anthropic =>
      {| req_url := pc_baseUrl pc +:+ "/v1/messages";
         req_headers := [("Content-Type", "application/json");
                         ("x-api-key", pc_apiKey pc);
                         ("anthropic-version", "2023-06-01")];
         req_body := JObj [("model", JStr (pc_model pc));
                           ("max_tokens", JNum 10);
                           ("messages", JArr [JObj [("role", JStr "user");
                                                    ("content", JStr prompt)]])];
         req_timeout := timeoutMs |}
  | openai =>
      {| req_url := pc_baseUrl pc +:+ "/v1/chat/completions";
         req_headers := [("Content-Type", "application/json");
                         ("Authorization", "Bearer " +:+ pc_apiKey pc)];
         req_body := JObj [("model", JStr (pc_model pc));
                           ("max_tokens", JNum 10);
                           ("messages", JArr [JObj [("role", JStr "user");
                                                    ("content", JStr prompt)]])];
         req_timeout := timeoutMs |}
  | gemini =>
      {| req_url := pc_baseUrl pc +:+ "/v1beta/models/" +:+ pc_model pc
                    +:+ ":generateContent?key=" +:+ pc_apiKey pc;
         req_headers := [("Content-Type", "application/json")];
         req_body := JObj [("contents", JArr [JObj [("parts", JArr [JObj [("text", JStr prompt)]])]]);
                           ("generationConfig", JObj [("maxOutputTokens", JNum 10)])];
         req_timeout := timeoutMs |}
  end.

Definition answer_text (p : Provider) (data : json) : option json :=
  match p with
  | anthropic => oprop (oindex0 (prop data "content")) "text"
  | openai => oprop (oprop (oindex0 (prop data "choices")) "message") "content"
  | gemini =>
      oprop (oindex0 (oprop (oprop (oindex0 (prop data "candidates")) "content") "parts")) "text"
  end.

Definition assessment_prompt (recentTexts : list string) : string :=
  let context := slice_last 3000 (join (LF +:+ "---" +:+ LF) recentTexts) in
  ASSESSMENT_PROMPT +:+ LF +:+ LF +:+ "<recent_output>" +:+ LF +:+ context +:+ LF
  +:+ "</recent_output>".

Definition assessTaskCompletion (env : gmap string string) (fetch : Request → FetchResult)
    (recentTexts : list string) (config : SmartContinueConfig) : Result bool :=
  match detectProvider env config with
  | None => Ok false
  | Some pc =>
      let prompt := assessment_prompt recentTexts in
      match callers fetch (pc_provider pc) with
      | None => Ok false
      | Some caller =>
          try_catch
            (answer ← caller pc prompt (timeoutMs config);
             Ok (String.eqb answer "DONE"))
            (λ _, Ok false)
      end
  end.

End WithRuntime.

End SmartContinue.

(** ** claudeRemote.ts *)

Module ClaudeRemote.
Import Js Sdk SmartContinue.

(** What the driver does to the outside world, in the order it does it:
    the callbacks of [opts], the outbound queue [messages], and the calls
    that suspend it.  The optional callbacks are taken as present, and no
    callback throws: the exceptions of the model are those of the stream and
    of the assessor. *)
Inductive Action : Type :=
| OnMessage (message : SDKMessage)
| OnThinkingChange (thinking : bool)
| AwaitFileExist (session_id : string)
| OnSessionFound (session_id : string)
| OnCompletionEvent (text : string)
| OnSessionReset
| OnReady
| NextMessage
| Push (content : string)
| End
| Assess (recentTexts : list string).

Inductive SpecialCommand : Type := clear | compact | no_command.

(** How one run of the loop body ends: it falls off its end, it executes
    [continue], it executes [return], or an exception leaves it. *)
Inductive Flow (A : Type) : Type :=
| Next (a : A)
| Continue
| Return
| Raise (e : Err).
Arguments Next {A} a.
Arguments Continue {A}.
Arguments Return {A}.
Arguments Raise {A} e.

(** How [claudeRemote] ends. *)
Inductive Completion : Type :=
| Returned
| Thrown (e : Err).

(** How the iteration over [response] ends once its events are consumed. *)
Inductive StreamEnd : Type :=
| Exhausted
| Failed (e : Err).

Definition MAX_AUTO_CONTINUE : nat := 3.

Definition AUTO_CONTINUE_MESSAGE : string :=
  "Continue. You stopped before completing the task. Pick up where you left off.".

Section Driver.
Context `{JsRuntime}.
(** [EnhancedMode], declared in [./loop]: the driver only stores it. *)
Context {Mode : Type}.
(** [parseSpecialCommand(...).type], declared in [@/parsers/specialCommands]. *)
Context (parseSpecialCommand : string → SpecialCommand).
(** [process.env] once [claudeEnvVars] is copied into it, and the value of
    [loadCheckpointConfig(opts.path)] read at its declared type. *)
Context (env : gmap string string) (smartContinueConfig : option SmartContinueConfig).

(** The local variables of [claudeRemote] that the loop changes, and the
    log of its actions, oldest first. *)
Record State : Type := {
  autoContinueCount : nat;
  smartContinueCount : nat;
  recentAssistantTexts : list string;
  isCompactCommand : bool;
  thinking : bool;
  mode : option Mode;
  log : list Action;
}.

(** What the outside answers while one event is handled: the value
    [opts.nextMessage()] resolves to, the network, and [opts.isAborted]. *)
Record StepInput : Type := {
  in_next : option (string * Mode);
  in_fetch : Request → FetchResult;
  in_isAborted : string → bool;
}.

Definition Body (A : Type) : Type := State → Flow A * State.

#[local] Instance Body_ret : MRet Body := λ A a st, (Next a, st).
#[local] Instance Body_bind : MBind Body := λ A B k m st,
  match m st with
  | (Next a, st') => k a st'
  | (Continue, st') => (Continue, st')
  | (Return, st') => (Return, st')
  | (Raise e, st') => (Raise e, st')
  end.

Definition get : Body State := λ st, (Next st, st).
Definition modify (f : State → State) : Body unit := λ st, (Next (), f st).
Definition continue_ : Body unit := λ st, (Continue, st).
Definition return_ : Body unit := λ st, (Return, st).
Definition raise (e : Err) : Body unit := λ st, (Raise e, st).
Definition skip : Body unit := mret ().

Definition set_autoContinueCount (n : nat) (st : State) : State :=
  {| autoContinueCount := n; smartContinueCount := smartContinueCount st;
     recentAssistantTexts := recentAssistantTexts st;
     isCompactCommand := isCompactCommand st; thinking := thinking st;
     mode := mode st; log := log st |}.
Definition set_smartContinueCount (n : nat) (st : State) : State :=
  {| autoContinueCount := autoContinueCount st; smartContinueCount := n;
     recentAssistantTexts := recentAssistantTexts st;
     isCompactCommand := isCompactCommand st; thinking := thinking st;
     mode := mode st; log := log st |}.
Definition set_recentAssistantTexts (l : list string) (st : State) : State :=
  {| autoContinueCount := autoContinueCount st; smartContinueCount := smartContinueCount st;
     recentAssistantTexts := l;
     isCompactCommand := isCompactCommand st; thinking := thinking st;
     mode := mode st; log := log st |}.
Definition set_isCompactCommand (b : bool) (st : State) : State :=
  {| autoContinueCount := autoContinueCount st; smartContinueCount := smartContinueCount st;
     recentAssistantTexts := recentAssistantTexts st;
     isCompactCommand := b; thinking := thinking st;
     mode := mode st; log := log st |}.
Definition set_thinking (b : bool) (st : State) : State :=
  {| autoContinueCount := autoContinueCount st; smartContinueCount := smartContinueCount st;
     recentAssistantTexts := recentAssistantTexts st;
     isCompactCommand := isCompactCommand st; thinking := b;
     mode := mode st; log := log st |}.
Definition set_mode (m : option Mode) (st : State) : State :=
  {| autoContinueCount := autoContinueCount st; smartContinueCount := smartContinueCount st;
     recentAssistantTexts := recentAssistantTexts st;
     isCompactCommand := isCompactCommand st; thinking := thinking st;
     mode := m; log := log st |}.
Definition add_log (a : Action) (st : State) : State :=
  {| autoContinueCount := autoContinueCount st; smartContinueCount := smartContinueCount st;
     recentAssistantTexts := recentAssistantTexts st;
     isCompactCommand := isCompactCommand st; thinking := thinking st;
     mode := mode st; log := log st ++ [a] |}.

Definition emit (a : Action) : Body unit := modify (add_log a).

Definition updateThinking (newThinking : bool) : Body unit :=
  st ← get;
  if negb (eqb (thinking st) newThinking) then
    modify (set_thinking newThinking);;
    emit (OnThinkingChange newThinking)
  else skip.

(** Lines 176-182: buffer recent assistant text.  [push_recent] is what
    the [push] and the [shift] make of the array. *)
Definition push_recent (message : SDKMessage) (recent : list string) : list string :=
  match extractAssistantText message, smartContinueConfig with
  | Some assistantText, Some config =>
      if truthy assistantText then
        let pushed := recent ++ [assistantText] in
        if bufferSize config <? Z.of_nat (length pushed) then tail pushed else pushed
      else recent
  | _, _ => recent
  end.

Definition buffer_text (message : SDKMessage) : Body unit :=
  modify (λ st, set_recentAssistantTexts (push_recent message (recentAssistantTexts st)) st).

(** Lines 188-203: the session-initialisation message. *)
Definition on_system (message : SDKMessage) : Body unit :=
  match message with
  | SystemMessage subtype session_id =>
      if String.eqb subtype "init" then
        updateThinking true;;
        match session_id with
        | Some id =>
            if truthy id then emit (AwaitFileExist id);; emit (OnSessionFound id)
            else skip
        | None => skip
        end
      else skip
  | _ => skip
  end.

(** The condition of line 214. *)
Definition auto_continue_gate (subtype : string) (num_turns : Z) (st : State) : bool :=
  String.eqb subtype "success" && (num_turns <=? 1) && negb (isCompactCommand st)
  && (autoContinueCount st <? MAX_AUTO_CONTINUE)%nat.

(** Lines 225-239: smart auto-continue. *)
Definition smart_continue (input : StepInput) (subtype : string) (num_turns : Z) : Body unit :=
  st ← get;
  match smartContinueConfig with
  | Some config =>
      if enabled config && negb (isCompactCommand st)
         && (Z.of_nat (smartContinueCount st) <? maxRetries config) then
        let hasCompletionMarker :=
          some (λ t, includes t (completionMarker config)) (recentAssistantTexts st) in
        if negb hasCompletionMarker && String.eqb subtype "success" && (1 <? num_turns) then
          emit (Assess (recentAssistantTexts st));;
          match assessTaskCompletion env (in_fetch input) (recentAssistantTexts st) config with
          | Throw e => raise e
          | Ok isDone =>
              if negb isDone then
                modify (set_smartContinueCount (S (smartContinueCount st)));;
                emit (Push (continueMessage config));;
                updateThinking true;;
                continue_
              else skip
          end
        else skip
      else skip
  | None => skip
  end.

(** Lines 206-261: a result message. *)
Definition on_result (input : StepInput) (message : SDKMessage) : Body unit :=
  match message with
  | ResultMessage subtype num_turns =>
      updateThinking false;;
      st ← get;
      if auto_continue_gate subtype num_turns st then
        modify (set_autoContinueCount (S (autoContinueCount st)));;
        emit (Push AUTO_CONTINUE_MESSAGE);;
        updateThinking true;;
        continue_
      else
        modify (set_autoContinueCount 0);;
        smart_continue input subtype num_turns;;
        st ← get;
        (if isCompactCommand st then
           emit (OnCompletionEvent "Compaction completed");;
           modify (set_isCompactCommand false)
         else skip);;
        emit OnReady;;
        emit NextMessage;;
        match in_next input with
        | None => emit End;; return_
        | Some (text, next_mode) =>
            modify (set_mode (Some next_mode));;
            emit (Push text)
        end
  | _ => skip
  end.

(** Lines 267-272: the loop over the content blocks of a user message. *)
Fixpoint tool_aborted (input : StepInput) (blocks : list ContentBlock) : Body unit :=
  match blocks with
  | [] => skip
  | c :: rest =>
      if String.eqb (block_type c) "tool_result"
         && match block_tool_use_id c with
            | Some id => truthy id && in_isAborted input id
            | None => false
            end
      then return_
      else tool_aborted input rest
  end.

(** Lines 264-274: a tool result. *)
Definition on_user (input : StepInput) (message : SDKMessage) : Body unit :=
  match message with
  | UserMessage role (ContentBlocks blocks) =>
      if String.eqb role "user" then tool_aborted input blocks else skip
  | _ => skip
  end.

(** Lines 172-275: the body of the loop, for one event of [response]. *)
Definition handle (input : StepInput) (message : SDKMessage) : Body unit :=
  buffer_text message;;
  emit (OnMessage message);;
  on_system message;;
  on_result input message;;
  on_user input message.

(** The [for await] loop over the events of [response]. *)
Fixpoint iterate (events : list (SDKMessage * StepInput)) (stream_end : StreamEnd)
    (st : State) : Completion * State :=
  match events with
  | [] =>
      match stream_end with
      | Exhausted => (Returned, st)
      | Failed e => (Thrown e, st)
      end
  | (message, input) :: rest =>
      match handle input message st with
      | (Next _, st') | (Continue, st') => iterate rest stream_end st'
      | (Return, st') => (Returned, st')
      | (Raise e, st') => (Thrown e, st')
      end
  end.

(** Lines 169-285: [try { for await ... } catch (e) { ... } finally { ... }]. *)
Definition guarded_loop (events : list (SDKMessage * StepInput)) (stream_end : StreamEnd)
    (st : State) : Completion * State :=
  let '(completion, st1) := iterate events stream_end st in
  let caught :=
    match completion with
    | Thrown AbortError => Returned
    | Thrown e => Thrown e
    | Returned => Returned
    end in
  (caught, snd (updateThinking false st1)).

(** Lines 81-168, up to the [try].  [initial] is what the first
    [opts.nextMessage()] resolves to.  The result is [inl] with the final state
    when the function returns here, [inr] with the state in which the loop is
    entered otherwise.  (The lines before compute [sdkOptions.resume] and copy
    [claudeEnvVars] into [process.env]; the loop does not read the former,
    and the latter is [env].) *)
Definition before_loop (initial : option (string * Mode)) : State + State :=
  let start := {| autoContinueCount := 0; smartContinueCount := 0;
                  recentAssistantTexts := []; isCompactCommand := false;
                  thinking := false; mode := None; log := [NextMessage] |} in
  match initial with
  | None => inl start
  | Some (message, initial_mode) =>
      match parseSpecialCommand message with
      | clear =>
          inl (add_log OnSessionReset (add_log (OnCompletionEvent "Context was reset") start))
      | command =>
          let st1 :=
            match command with
            | compact =>
                add_log (OnCompletionEvent "Compaction started") (set_isCompactCommand true start)
            | _ => start
            end in
          let st2 := add_log (Push message) (set_mode (Some initial_mode) st1) in
          inr (snd (updateThinking true st2))
      end
  end.

Definition claudeRemote (initial : option (string * Mode))
    (events : list (SDKMessage * StepInput)) (stream_end : StreamEnd)
    : Completion * State :=
  match before_loop initial with
  | inl st => (Returned, st)
  | inr st => guarded_loop events stream_end st
  end.

(** Whether the loop, started in [st], takes every event of [events], that
    is, whether no run of its body returns or throws. *)
Fixpoint consumes_all (events : list (SDKMessage * StepInput)) (st : State) : bool :=
  match events with
  | [] => true
  | (message, input) :: rest =>
      match handle input message st with
      | (Next _, st') | (Continue, st') => consumes_all rest st'
      | _ => false
      end
  end.

(** The entries the log gained between two states. *)
Definition new_actions (before after : State) : list Action :=
  drop (length (log before)) (log after).

(** What the caller's thinking indicator shows after the actions of a log:
    the last value passed to [onThinkingChange], inactive before any. *)
Definition indicator (actions : list Action) : bool :=
  foldl (λ shown a, match a with OnThinkingChange b => b | _ => shown end) false actions.

End Driver.

End ClaudeRemote.

(** ** claudeRemote.ts, before the first message *)

Module Setup.
Import Js Sdk SmartContinue ClaudeRemote.

(** Lines 49-70: the scan of [claudeArgs] for [--resume].  Every branch
    under the first [--resume] ends in [break], so the loop looks at the
    first occurrence only; the result is the value assigned to [startFrom],
    if any. *)
Fixpoint resume_argument (claudeArgs : list string) : option string :=
  match claudeArgs with
  | [] => None
  | arg :: rest =>
      if String.eqb arg "--resume" then
        match rest with
        | nextArg :: _ =>
            if negb (startsWith nextArg "-") && includes nextArg "-" then Some nextArg
            else None
        | [] => None
        end
      else resume_argument rest
  end.

(** Lines 42-71: [startFrom].  [null] is [None]; [claudeCheckSession] is
    declared in [./utils/claudeCheckSession]. *)
Definition start_from (claudeCheckSession : string → string → bool)
    (sessionId : option string) (path : string) (claudeArgs : option (list string))
    : option string :=
  let startFrom :=
    match sessionId with
    | Some id => if truthy id && negb (claudeCheckSession id path) then None else Some id
    | None => None
    end in
  let unset :=
    match startFrom with
    | Some id => negb (truthy id)
    | None => true
    end in
  match claudeArgs with
  | Some args =>
      if unset then
        match resume_argument args with
        | Some nextArg => Some nextArg
        | None => startFrom
        end
      else startFrom
  | None => startFrom
  end.

(** Lines 74-79: [process.env] after the entries of [claudeEnvVars] are
    assigned in order and [DISABLE_AUTOUPDATER] is set. *)
Definition apply_env_vars (claudeEnvVars : option (list (string * string)))
    (env : gmap string string) : gmap string string :=
  let assigned :=
    match claudeEnvVars with
    | Some entries => foldl (λ e entry, <[entry.1 := entry.2]> e) env entries
    | None => env
    end in
  <["DISABLE_AUTOUPDATER" := "1"]> assigned.

(** *** What a caller observes of a log *)

(** The events passed to [opts.onMessage], in order. *)
Definition forwarded (actions : list Action) : list SDKMessage :=
  omap (λ a, match a with OnMessage message => Some message | _ => None end) actions.

(** The values passed to [opts.onThinkingChange], in order. *)
Definition notifications (actions : list Action) : list bool :=
  omap (λ a, match a with OnThinkingChange b => Some b | _ => None end) actions.

(** The contents passed to [messages.push], in order. *)
Definition pushed (actions : list Action) : list string :=
  omap (λ a, match a with Push content => Some content | _ => None end) actions.

(** Whether the values of a list alternate, starting with [first]. *)
Fixpoint alternates (first : bool) (values : list bool) : bool :=
  match values with
  | [] => true
  | b :: rest => eqb b first && alternates (negb first) rest
  end.

(** A state in which the notifications so far alternate from active and
    [thinking] is the last of them. *)
Definition paced {Mode : Type} (st : State (Mode:=Mode)) : Prop :=
  alternates true (notifications (log st)) = true
  ∧ thinking st = default false (last (notifications (log st))).

(** *** A configuration written as a [thread.json] *)

(** The [smartContinue] section that spells out every field of a
    configuration, and the document that holds it. *)
Definition section_of (c : SmartContinueConfig) : json :=
  JObj ([("enabled", JBool (enabled c));
         ("model", JStr (model c));
         ("maxRetries", JNum (maxRetries c));
         ("bufferSize", JNum (bufferSize c));
         ("completionMarker", JStr (completionMarker c));
         ("timeoutMs", JNum (timeoutMs c));
         ("continueMessage", JStr (continueMessage c))]
        ++ match provider c with
           | Some p => [("provider", JStr (provider_name p))]
           | None => []
           end).

Definition thread_document (c : SmartContinueConfig) : json :=
  JObj [("config", JObj [("smartContinue", section_of c)])].

End Setup.

(** ** A concrete runtime and concrete inputs, for the examples *)

Module Fixture.
Import Js Sdk SmartContinue ClaudeRemote.

Definition is_space (c : Ascii.ascii) : bool :=
  let n := Ascii.nat_of_ascii c in
  ((9 <=? n) && (n <=? 13) || (n =? 32))%nat.

Fixpoint trim_start (s : string) : string :=
  match s with
  | String c rest => if is_space c then trim_start rest else s
  | EmptyString => EmptyString
  end.

Fixpoint trim_end (s : string) : string :=
  match s with
  | String c rest =>
      match trim_end rest with
      | EmptyString => if is_space c then EmptyString else String c EmptyString
      | kept => String c kept
      end
  | EmptyString => EmptyString
  end.

Definition upper_char (c : Ascii.ascii) : Ascii.ascii :=
  let n := Ascii.nat_of_ascii c in
  if ((97 <=? n) && (n <=? 122))%nat then Ascii.ascii_of_nat (n - 32) else c.

Fixpoint upper (s : string) : string :=
  match s with
  | String c rest => String (upper_char c) (upper rest)
  | EmptyString => EmptyString
  end.

(** A parser for the three documents the examples use. *)
Definition parse_known (doc : string) : option json :=
  if String.eqb doc "{}" then Some (JObj [])
  else if String.eqb doc "null" then Some JNull
  else if String.eqb doc "[]" then Some (JArr [])
  else None.

#[global] Instance ascii_runtime : JsRuntime := {|
  trim s := trim_end (trim_start s);
  toUpperCase := upper;
  JSON_parse := parse_known;
  path_join := join "/";
|}.

Definition env_openai_only : gmap string string := {[ "OPENAI_API_KEY" := "sk-test" ]}.

Definition config_anthropic : SmartContinueConfig :=
  with_provider (Some anthropic) DEFAULT_SMART_CONTINUE.

Definition config_openai : SmartContinueConfig :=
  with_provider (Some openai) DEFAULT_SMART_CONTINUE.

Definition env_openai_and_path : gmap string string :=
  <["PATH" := "/usr/bin"]> env_openai_only.

(** A working directory whose pointer file names checkpoint [t1], with no
    [thread.json], with one that has no [smartContinue] section, and with one
    that is not JSON. *)
Definition fs_pointer_only (path : string) : FileState :=
  if String.eqb path "/work/.checkpoints/current" then Contents (" t1" +:+ LF)
  else Missing.

Definition fs_no_section (path : string) : FileState :=
  if String.eqb path "/work/.checkpoints/current" then Contents (" t1" +:+ LF)
  else if String.eqb path "/work/.checkpoints/threads/t1/thread.json" then Contents "{}"
  else Missing.

Definition fs_bad_json (path : string) : FileState :=
  if String.eqb path "/work/.checkpoints/current" then Contents (" t1" +:+ LF)
  else if String.eqb path "/work/.checkpoints/threads/t1/thread.json" then Contents "{oops"
  else Missing.

(** The defaults with a negative buffer size, as a [thread.json] with
    [bufferSize: -1] gives them. *)
Definition config_negative_buffer : SmartContinueConfig := {|
  enabled := true;
  model := "claude-haiku-4-5-20251001";
  maxRetries := 2;
  bufferSize := -1;
  completionMarker := "[CHECKPOINT_COMPLETE]";
  timeoutMs := 8000;
  continueMessage := "continue";
  provider := None;
|}.

(** An OpenAI backend that answers every request with [text]. *)
Definition openai_answers (text : string) (_ : Request) : FetchResult :=
  FetchResponse true 200
    (Some (JObj [("choices", JArr [JObj [("message", JObj [("content", JStr text)])]])])).

(** A backend that misses its deadline. *)
Definition times_out (_ : Request) : FetchResult :=
  FetchReject (JsError "TimeoutError" "The operation was aborted due to timeout").

(** An OpenAI backend whose answer carries a number where the text should
    be, and one whose body is not JSON. *)
Definition answers_number (_ : Request) : FetchResult :=
  FetchResponse true 200
    (Some (JObj [("choices", JArr [JObj [("message", JObj [("content", JNum 7)])]])])).

Definition answers_garbage (_ : Request) : FetchResult :=
  FetchResponse true 200 None.

(** A backend that answers with an error status. *)
Definition unauthorized (_ : Request) : FetchResult :=
  FetchResponse false 401 None.

(** A configuration whose every field differs from the defaults and is
    falsy where it can be, a runtime whose parser also knows the document
    that spells it out, and a working directory that holds that document. *)
Definition config_quiet : SmartContinueConfig := {|
  enabled := false;
  model := "";
  maxRetries := 0;
  bufferSize := 0;
  completionMarker := "DONE.";
  timeoutMs := 0;
  continueMessage := "";
  provider := Some gemini;
|}.

Definition parse_thread (doc : string) : option json :=
  if String.eqb doc "thread.json of config_quiet" then Some (Setup.thread_document config_quiet)
  else parse_known doc.

Definition thread_runtime : JsRuntime := {|
  trim s := trim_end (trim_start s);
  toUpperCase := upper;
  JSON_parse := parse_thread;
  path_join := join "/";
|}.

Definition fs_with_section (path : string) : FileState :=
  if String.eqb path "/work/.checkpoints/current" then Contents (" t1" +:+ LF)
  else if String.eqb path "/work/.checkpoints/threads/t1/thread.json"
       then Contents "thread.json of config_quiet"
  else Missing.

(** A caller with no further message, and one with a follow-up. *)
Definition no_next (fetch : Request → FetchResult) : StepInput (Mode:=unit) :=
  {| in_next := None; in_fetch := fetch; in_isAborted := λ _, false |}.

Definition next_is (text : string) (fetch : Request → FetchResult) : StepInput (Mode:=unit) :=
  {| in_next := Some (text, tt); in_fetch := fetch; in_isAborted := λ _, false |}.

Definition assistant_says (text : string) : SDKMessage :=
  AssistantMessage (Some [{| block_type := "text"; block_text := Some text;
                             block_tool_use_id := None |}]).

(** A state of the loop in mid-session, thinking, with [recent] buffered. *)
Definition thinking_with (recent : list string) (streak : nat) : State (Mode:=unit) :=
  {| autoContinueCount := streak; smartContinueCount := 0;
     recentAssistantTexts := recent; isCompactCommand := false;
     thinking := true; mode := Some tt; log := [NextMessage; Push "do the task"] |}.

End Fixture.

(** * Properties *)

(** ** JavaScript helpers *)

Module JsFacts.
Import Js.

Lemma truthy_false (s : string) : truthy s = false ↔ s = "".
Proof.
  unfold truthy. rewrite negb_false_iff. apply String.eqb_eq.
Qed.

Lemma truthy_true (s : string) : truthy s = true ↔ s ≠ "".
Proof.
  unfold truthy. rewrite negb_true_iff. apply String.eqb_neq.
Qed.


Lemma append_cons c (a b : string) : String c a +:+ b = String c (a +:+ b).
Proof. reflexivity. Qed.

Lemma prefix_spec (p s : string) : String.prefix p s = true ↔ ∃ rest, s = p +:+ rest.
Proof.
  revert s. induction p as [|c p IH]; intros [|d s]; simpl.
  - split; [intros _; by exists "" | done].
  - split; [intros _; by exists (String d s) | done].
  - split; [done | by intros [? ?]].
  - setoid_rewrite append_cons. destruct (Ascii.ascii_dec c d) as [->|Hne].
    + rewrite IH. split; intros [rest Hrest]; exists rest; congruence.
    + split; [done | intros [rest Hrest]; congruence].
Qed.

(** [includes] is the substring test. *)
Lemma includes_spec (s m : string) :
  includes s m = true ↔ ∃ before after, s = before +:+ m +:+ after.
Proof.
  induction s as [|c s IH]; cbn [includes].
  - rewrite orb_false_r, prefix_spec. split.
    + intros [rest Hrest]. by exists "", rest.
    + intros (before & after & Heq). destruct before; [by exists after | done].
  - rewrite orb_true_iff, prefix_spec, IH. split.
    + intros [[rest Hrest] | (before & after & ->)].
      * by exists "", rest.
      * by exists (String c before), after.
    + intros (before & after & Heq). destruct before as [|d before].
      * left. by exists after.
      * right. rewrite append_cons in Heq. injection Heq as -> ->. by exists before, after.
Qed.

Lemma some_spec {A : Type} (p : A → bool) (l : list A) :
  some p l = true ↔ ∃ x, x ∈ l ∧ p x = true.
Proof.
  unfold some. rewrite existsb_exists. by setoid_rewrite list_elem_of_In.
Qed.

End JsFacts.

(** ** The provider selector *)

Module SelectorFacts.
Import Js Sdk SmartContinue JsFacts.

Lemma detectProvider_explicit env config p :
  provider config = Some p →
  truthy (credential env p) = true →
  detectProvider env config =
    Some {| pc_provider := provider_name p;
            pc_apiKey := credential env p;
            pc_baseUrl := base_url env p;
            pc_model := or_str (model config) (DEFAULT_MODELS p) |}.
Proof.
  intros Hp Hcred. unfold detectProvider, or_continue. rewrite Hp.
  destruct p; simpl in *; repeat case_bool_decide; try congruence;
    rewrite ?Hcred; reflexivity.
Qed.

Lemma detectProvider_auto env config :
  explicit_choice env config = false →
  detectProvider env config =
    match List.find (λ p, truthy (credential env p)) [anthropic; openai; gemini] with
    | Some p =>
        Some {| pc_provider := provider_name p;
                pc_apiKey := credential env p;
                pc_baseUrl := base_url env p;
                pc_model := if startsWith (model config) (model_prefix p) then model config
                            else DEFAULT_MODELS p |}
    | None => None
    end.
Proof.
  unfold explicit_choice, detectProvider, or_continue. intros Hno.
  destruct (provider config) as [[]|]; simpl in *; repeat case_bool_decide;
    try congruence; rewrite ?Hno;
    repeat match goal with
           | |- context [truthy ?s] => destruct (truthy s) eqn:?; try congruence
           end; reflexivity.
Qed.

Lemma explicit_choice_unset env config : explicit_choice env (with_provider None config) = false.
Proof. reflexivity. Qed.

Lemma detectProvider_fallthrough env config p :
  provider config = Some p →
  truthy (credential env p) = false →
  detectProvider env config = detectProvider env (with_provider None config).
Proof.
  intros Hp Hcred.
  rewrite (detectProvider_auto env config), (detectProvider_auto env (with_provider None config));
    [reflexivity | apply explicit_choice_unset |].
  unfold explicit_choice. by rewrite Hp.
Qed.

Lemma find_provider_name env p :
  List.find (λ q, truthy (credential env q)) [anthropic; openai; gemini] = Some p →
  truthy (credential env p) = true.
Proof. intros Hfind. by apply List.find_some in Hfind as [_ ?]. Qed.

(** C4, the claim as stated, fails: with the anthropic provider chosen, no
    anthropic credential and an OpenAI key in the environment, the selector
    resolves to the openai provider instead of returning null. *)
Lemma detectProvider_explicit_substitutes :
  provider Fixture.config_anthropic = Some anthropic
  ∧ credential Fixture.env_openai_only anthropic = ""
  ∧ detectProvider Fixture.env_openai_only Fixture.config_anthropic =
      Some {| pc_provider := "openai"; pc_apiKey := "sk-test";
              pc_baseUrl := "https://api.openai.com"; pc_model := "gpt-4o-mini" |}.
Proof. repeat split; vm_compute; reflexivity. Qed.

(** C4, amended.  When the configuration names a provider: if that
    provider's credential is present the selector returns that provider,
    built from that provider's variables alone; if it is absent the selector
    does not stop, it returns what auto-detection returns, that is what it
    returns for the same configuration with no provider named. *)
Theorem detectProvider_explicit_choice env config p :
  provider config = Some p →
  (credential env p ≠ "" →
     detectProvider env config =
       Some {| pc_provider := provider_name p;
               pc_apiKey := credential env p;
               pc_baseUrl := base_url env p;
               pc_model := or_str (model config) (DEFAULT_MODELS p) |})
  ∧ (credential env p = "" →
     detectProvider env config = detectProvider env (with_provider None config)).
Proof.
  intros Hp. split; intros Hcred.
  - apply detectProvider_explicit; [done | by apply truthy_true].
  - apply (detectProvider_fallthrough env config p); [done | by apply truthy_false].
Qed.

Lemma detectProvider_explicit_choice_witness :
  detectProvider Fixture.env_openai_only Fixture.config_openai =
    Some {| pc_provider := "openai"; pc_apiKey := "sk-test";
            pc_baseUrl := "https://api.openai.com";
            pc_model := "claude-haiku-4-5-20251001" |}
  ∧ detectProvider Fixture.env_openai_only Fixture.config_anthropic =
      detectProvider Fixture.env_openai_only (with_provider None Fixture.config_anthropic).
Proof.
  split.
  - apply (proj1 (detectProvider_explicit_choice
                    Fixture.env_openai_only Fixture.config_openai openai eq_refl)).
    vm_compute. discriminate.
  - apply (proj2 (detectProvider_explicit_choice
                    Fixture.env_openai_only Fixture.config_anthropic anthropic eq_refl)).
    vm_compute. reflexivity.
Defined.

(** The shape of every result of the selector. *)
Lemma detectProvider_shape env config pc :
  detectProvider env config = Some pc →
  ∃ p, pc = {| pc_provider := provider_name p;
               pc_apiKey := credential env p;
               pc_baseUrl := base_url env p;
               pc_model :=
                 if explicit_choice env config then or_str (model config) (DEFAULT_MODELS p)
                 else if startsWith (model config) (model_prefix p) then model config
                      else DEFAULT_MODELS p |}
       ∧ (explicit_choice env config = true → provider config = Some p).
Proof.
  intros Hsome. destruct (explicit_choice env config) eqn:Hexp.
  - unfold explicit_choice in Hexp. destruct (provider config) as [p|] eqn:Hp; [|done].
    rewrite (detectProvider_explicit env config p Hp Hexp) in Hsome.
    injection Hsome as <-. by exists p.
  - rewrite (detectProvider_auto env config Hexp) in Hsome.
    destruct (List.find _ _) as [p|]; [|done].
    injection Hsome as <-. by exists p.
Qed.

(** C5, the claim as stated, fails: with the openai provider chosen and its
    key present, a model name that does not start with [gpt] is returned as
    it is, not replaced by the default model of openai. *)
Lemma detectProvider_explicit_keeps_model :
  ∃ pc, detectProvider Fixture.env_openai_only Fixture.config_openai = Some pc
        ∧ pc_provider pc = provider_name openai
        ∧ startsWith (model Fixture.config_openai) (model_prefix openai) = false
        ∧ pc_model pc = model Fixture.config_openai
        ∧ pc_model pc ≠ DEFAULT_MODELS openai.
Proof.
  eexists. split; [vm_compute; reflexivity |].
  repeat split; try (vm_compute; reflexivity). vm_compute. discriminate.
Qed.

(** C5, amended.  Whenever the selector resolves to a provider: if it is
    the provider the configuration names (its credential being present) the
    returned model is the configured model when that is not empty, whatever
    its prefix, and the provider's default when it is empty; if the provider
    was found by auto-detection the returned model is the configured model
    when it starts with the provider's prefix and the provider's default
    otherwise. *)
Theorem detectProvider_model env config pc :
  detectProvider env config = Some pc →
  ∃ p, pc_provider pc = provider_name p
       ∧ (explicit_choice env config = true → provider config = Some p)
       ∧ pc_model pc =
           if explicit_choice env config then or_str (model config) (DEFAULT_MODELS p)
           else if startsWith (model config) (model_prefix p) then model config
                else DEFAULT_MODELS p.
Proof.
  intros Hsome. destruct (detectProvider_shape env config pc Hsome) as (p & -> & Hexp).
  exists p. by repeat split.
Qed.

Lemma detectProvider_model_witness :
  ∃ p, pc_provider {| pc_provider := "openai"; pc_apiKey := "sk-test";
                      pc_baseUrl := "https://api.openai.com";
                      pc_model := "claude-haiku-4-5-20251001" |} = provider_name p
       ∧ (explicit_choice Fixture.env_openai_only Fixture.config_openai = true →
          provider Fixture.config_openai = Some p)
       ∧ "claude-haiku-4-5-20251001" =
           if explicit_choice Fixture.env_openai_only Fixture.config_openai
           then or_str (model Fixture.config_openai) (DEFAULT_MODELS p)
           else if startsWith (model Fixture.config_openai) (model_prefix p)
                then model Fixture.config_openai
                else DEFAULT_MODELS p.
Proof.
  apply (detectProvider_model Fixture.env_openai_only Fixture.config_openai).
  vm_compute. reflexivity.
Defined.

Lemma lookup_agree (env1 env2 : gmap string string) (k : string) :
  (∀ v, v ∈ provider_variables → env1 !! v = env2 !! v) →
  k ∈ provider_variables → env1 !! k = env2 !! k.
Proof. intros Hagree Hk. by apply Hagree. Qed.

(** C9.  The selector is a function of the configuration and of the seven
    environment variables it reads: two environments that assign them alike
    give the same result, provider, key, base URL and model, or null in
    both. *)
Theorem detectProvider_deterministic (env1 env2 : gmap string string) config :
  (∀ v, v ∈ provider_variables → env1 !! v = env2 !! v) →
  detectProvider env1 config = detectProvider env2 config.
Proof.
  intros Hagree. unfold detectProvider.
  rewrite (lookup_agree env1 env2 "ANTHROPIC_AUTH_TOKEN" Hagree) by (unfold provider_variables; set_solver).
  rewrite (lookup_agree env1 env2 "ANTHROPIC_API_KEY" Hagree) by (unfold provider_variables; set_solver).
  rewrite (lookup_agree env1 env2 "ANTHROPIC_BASE_URL" Hagree) by (unfold provider_variables; set_solver).
  rewrite (lookup_agree env1 env2 "OPENAI_API_KEY" Hagree) by (unfold provider_variables; set_solver).
  rewrite (lookup_agree env1 env2 "OPENAI_BASE_URL" Hagree) by (unfold provider_variables; set_solver).
  rewrite (lookup_agree env1 env2 "GEMINI_API_KEY" Hagree) by (unfold provider_variables; set_solver).
  rewrite (lookup_agree env1 env2 "GOOGLE_API_KEY" Hagree) by (unfold provider_variables; set_solver).
  reflexivity.
Qed.

Lemma detectProvider_deterministic_witness :
  Fixture.env_openai_only ≠ Fixture.env_openai_and_path
  ∧ detectProvider Fixture.env_openai_only Fixture.config_anthropic =
      detectProvider Fixture.env_openai_and_path Fixture.config_anthropic.
Proof.
  split.
  - intros Heq. apply (f_equal (λ m : gmap string string, m !! "PATH")) in Heq.
    vm_compute in Heq. discriminate.
  - apply detectProvider_deterministic. intros v Hv. unfold provider_variables in Hv.
    repeat (apply elem_of_cons in Hv as [->|Hv]; [vm_compute; reflexivity |]).
    by apply elem_of_nil in Hv.
Defined.

End SelectorFacts.

(** ** The completion assessor *)

Module AssessorFacts.
Import Js Sdk SmartContinue JsFacts SelectorFacts.

Section WithRuntime.
Context `{JsRuntime}.

(** The assessor never throws. *)
Lemma assessTaskCompletion_total env fetch recentTexts config :
  ∃ done : bool, assessTaskCompletion env fetch recentTexts config = Ok done.
Proof.
  unfold assessTaskCompletion.
  destruct (detectProvider env config) as [pc|]; [|by eexists].
  destruct (callers fetch (pc_provider pc)) as [caller|]; [|by eexists].
  destruct (caller pc _ _); simpl; by eexists.
Qed.

(** What a client makes of the answer to its request. *)
Lemma callers_answer fetch p pc prompt t :
  ∃ caller,
    callers fetch (provider_name p) = Some caller
    ∧ caller pc prompt t =
        match fetch (provider_request p pc prompt t) with
        | FetchReject e => Throw e
        | FetchResponse false status _ =>
            Throw (JsError "Error"
                     (match p with
                      | anthropic => "Anthropic"
                      | openai => "OpenAI"
                      | gemini => "Gemini"
                      end +:+ " API returned " +:+ pretty status))
        | FetchResponse true _ None => Throw (JsError "SyntaxError" "Unexpected token")
        | FetchResponse true _ (Some JNull) =>
            Throw (JsError "TypeError" "Cannot read properties of null")
        | FetchResponse true _ (Some data) => normalized (answer_text p data)
        end.
Proof.
  destruct p; eexists; (split; [reflexivity|]);
    unfold callAnthropic, callOpenAI, callGemini, provider_request, answer_text;
    destruct (fetch _) as [e|[] status [data|]]; try reflexivity;
    destruct data; reflexivity.
Qed.

Lemma normalized_done text :
  normalized text = Ok "DONE" ↔ ∃ s, text = Some (JStr s) ∧ toUpperCase (trim s) = "DONE".
Proof.
  split.
  - destruct text as [[]|]; simpl; intros Hn; try discriminate.
    injection Hn as Hn. eauto.
  - intros (s & -> & Hs). simpl. by rewrite Hs.
Qed.

Lemma provider_name_inj p q : provider_name p = provider_name q → p = q.
Proof. by destruct p, q. Qed.

(** C6.  The assessor always returns a boolean, no exception leaves it, and
    the boolean is true exactly when a provider resolves, the request to
    that provider is answered with an ok status and a body that parses, and
    the text found in the body, trimmed and upper-cased, is DONE.  In every
    other case (no provider, a rejected or timed-out request, an error
    status, a body that is not JSON or has no text where the client looks,
    a text that normalises to anything else) the boolean is false. *)
Theorem assessTaskCompletion_verdict env fetch recentTexts config :
  ∃ done : bool,
    assessTaskCompletion env fetch recentTexts config = Ok done
    ∧ (done = true ↔
       ∃ pc p status data text,
         detectProvider env config = Some pc
         ∧ pc_provider pc = provider_name p
         ∧ fetch (provider_request p pc (assessment_prompt recentTexts) (timeoutMs config))
             = FetchResponse true status (Some data)
         ∧ answer_text p data = Some (JStr text)
         ∧ toUpperCase (trim text) = "DONE").
Proof.
  unfold assessTaskCompletion.
  destruct (detectProvider env config) as [pc|] eqn:Hpc.
  2: { exists false. split; [done|]. split; [done|]. by intros (? & ? & ? & ? & ? & ? & _). }
  destruct (detectProvider_shape env config pc Hpc) as (p & Hshape & _).
  assert (Hname : pc_provider pc = provider_name p) by (by rewrite Hshape).
  destruct (callers_answer fetch p pc (assessment_prompt recentTexts) (timeoutMs config))
    as (caller & Hcaller & Hcall).
  rewrite Hname, Hcaller, Hcall. clear Hcaller Hcall caller.
  enough (∃ done : bool,
            try_catch
              (answer ← match fetch (provider_request p pc (assessment_prompt recentTexts)
                                       (timeoutMs config)) with
                        | FetchReject e => Throw e
                        | FetchResponse false status _ =>
                            Throw (JsError "Error"
                                     (match p with
                                      | anthropic => "Anthropic"
                                      | openai => "OpenAI"
                                      | gemini => "Gemini"
                                      end +:+ " API returned " +:+ pretty status))
                        | FetchResponse true _ None =>
                            Throw (JsError "SyntaxError" "Unexpected token")
                        | FetchResponse true _ (Some JNull) =>
                            Throw (JsError "TypeError" "Cannot read properties of null")
                        | FetchResponse true _ (Some data) => normalized (answer_text p data)
                        end;
               Ok (String.eqb answer "DONE"))
              (λ _, Ok false) = Ok done
            ∧ (done = true ↔
               ∃ status data text,
                 fetch (provider_request p pc (assessment_prompt recentTexts) (timeoutMs config))
                   = FetchResponse true status (Some data)
                 ∧ answer_text p data = Some (JStr text)
                 ∧ toUpperCase (trim text) = "DONE")) as (done & Hrun & Hiff).
  { exists done. split; [exact Hrun|]. rewrite Hiff. split.
    - intros (status & data & text & Hf & Ht & Hd). by exists pc, p, status, data, text.
    - intros (pc' & q & status & data & text & [= <-] & Hq & Hf & Ht & Hd).
      rewrite Hname in Hq. apply provider_name_inj in Hq. subst q.
      by exists status, data, text. }
  destruct (fetch _) as [e|[] status [data|]]; simpl.
  - exists false. split; [done|]. split; [done|]. by intros (? & ? & ? & ? & _).
  - assert (Hnormal : ∃ done : bool,
              try_catch (answer ← normalized (answer_text p data);
                         Ok (String.eqb answer "DONE")) (λ _, Ok false) = Ok done
              ∧ (done = true ↔
                 ∃ status' data' text,
                   FetchResponse true status (Some data) = FetchResponse true status' (Some data')
                   ∧ answer_text p data' = Some (JStr text)
                   ∧ toUpperCase (trim text) = "DONE")).
    { destruct (normalized (answer_text p data)) as [answer|e] eqn:Hn; simpl.
      - exists (String.eqb answer "DONE"). split; [done|]. rewrite String.eqb_eq. split.
        + intros ->. apply normalized_done in Hn as (text & Ht & Hd).
          by exists status, data, text.
        + intros (status' & data' & text & [= <- <-] & Ht & Hd).
          assert (Hdone : normalized (answer_text p data) = Ok "DONE")
            by (apply normalized_done; eauto).
          congruence.
      - exists false. split; [done|]. split; [done|].
        intros (status' & data' & text & [= <- <-] & Ht & Hd).
        assert (Hdone : normalized (answer_text p data) = Ok "DONE")
          by (apply normalized_done; eauto).
        congruence. }
    destruct data; try exact Hnormal.
    exists false. split; [done|]. split; [done|].
    intros (status' & data' & text & [= <- <-] & Ht & _). by destruct p.
  - exists false. split; [done|]. split; [done|]. by intros (? & ? & ? & ? & _).
  - exists false. split; [done|]. split; [done|]. by intros (? & ? & ? & ? & _).
  - exists false. split; [done|]. split; [done|]. by intros (? & ? & ? & ? & _).
Qed.

End WithRuntime.

(** The three outcomes on a concrete runtime: a response that normalises to
    DONE, a response that does not, a missed deadline, an error status, and
    no credential at all. *)
Example assess_done :
  assessTaskCompletion Fixture.env_openai_only (Fixture.openai_answers " done ")
    ["working on it"] DEFAULT_SMART_CONTINUE = Ok true.
Proof. vm_compute. reflexivity. Qed.

Example assess_not_done :
  assessTaskCompletion Fixture.env_openai_only (Fixture.openai_answers "NOT_DONE")
    ["working on it"] DEFAULT_SMART_CONTINUE = Ok false.
Proof. vm_compute. reflexivity. Qed.

Example assess_timeout :
  assessTaskCompletion Fixture.env_openai_only Fixture.times_out
    ["working on it"] DEFAULT_SMART_CONTINUE = Ok false.
Proof. vm_compute. reflexivity. Qed.

Example assess_http_error :
  assessTaskCompletion Fixture.env_openai_only Fixture.unauthorized
    ["working on it"] DEFAULT_SMART_CONTINUE = Ok false.
Proof. vm_compute. reflexivity. Qed.

Example assess_malformed_response :
  assessTaskCompletion Fixture.env_openai_only Fixture.answers_number
    ["working on it"] DEFAULT_SMART_CONTINUE = Ok false
  ∧ assessTaskCompletion Fixture.env_openai_only Fixture.answers_garbage
      ["working on it"] DEFAULT_SMART_CONTINUE = Ok false.
Proof. split; vm_compute; reflexivity. Qed.

Example assess_no_credentials :
  assessTaskCompletion ∅ (Fixture.openai_answers "DONE")
    ["working on it"] DEFAULT_SMART_CONTINUE = Ok false.
Proof. vm_compute. reflexivity. Qed.

End AssessorFacts.

(** ** The checkpoint loader *)

Module LoaderFacts.
Import Js Sdk SmartContinue JsFacts.

Section WithRuntime.
Context `{JsRuntime}.

(** What the loader returns once the pointer file is read: it depends on
    [thread.json] alone. *)
Lemma loadCheckpointConfig_pointer fs cwd pointer :
  fs (currentFile cwd) = Contents pointer →
  trim pointer ≠ "" →
  loadCheckpointConfig fs cwd =
    match fs (threadJsonPath cwd (trim pointer)) with
    | Missing => Some (as_loaded DEFAULT_SMART_CONTINUE)
    | Unreadable => None
    | Contents doc =>
        match JSON_parse doc with
        | None => None
        | Some threadData =>
            let sc := oprop (oprop (Some threadData) "config") "smartContinue" in
            if js_truthy sc then
              match sc with
              | Some scv => Some {|
                  l_enabled := nullish (prop scv "enabled") (JBool true);
                  l_model := nullish (prop scv "model") (JStr "claude-haiku-4-5-20251001");
                  l_maxRetries := nullish (prop scv "maxRetries") (JNum 2);
                  l_bufferSize := nullish (prop scv "bufferSize") (JNum 5);
                  l_completionMarker := nullish (prop scv "completionMarker") (JStr "[CHECKPOINT_COMPLETE]");
                  l_timeoutMs := nullish (prop scv "timeoutMs") (JNum 8000);
                  l_continueMessage :=
                    nullish (prop scv "continueMessage") (JStr (continueMessage DEFAULT_SMART_CONTINUE));
                  l_provider := prop scv "provider" |}
              | None => Some (as_loaded DEFAULT_SMART_CONTINUE)
              end
            else Some (as_loaded DEFAULT_SMART_CONTINUE)
        end
    end.
Proof.
  intros Hptr Hid. apply truthy_true in Hid.
  unfold loadCheckpointConfig, existsSync, readFileSync.
  rewrite Hptr. simpl. rewrite Hid. simpl.
  destruct (fs (threadJsonPath cwd (trim pointer))) as [| |doc]; simpl; try reflexivity.
  destruct (JSON_parse doc) as [threadData|]; simpl; [|reflexivity].
  match goal with |- context [js_truthy ?sc] => generalize sc end. intros [scv|];
    [|reflexivity].
  destruct (js_truthy (Some scv)); reflexivity.
Qed.

(** The loader does not check what [thread.json] holds: a negative buffer
    size is passed on as it is. *)
Lemma loadCheckpointConfig_unchecked fs cwd pointer doc :
  fs (currentFile cwd) = Contents pointer →
  trim pointer ≠ "" →
  fs (threadJsonPath cwd (trim pointer)) = Contents doc →
  JSON_parse doc =
    Some (JObj [("config", JObj [("smartContinue", JObj [("bufferSize", JNum (-1))])])]) →
  l_bufferSize <$> loadCheckpointConfig fs cwd = Some (JNum (-1)).
Proof.
  intros Hptr Hid Hdoc Hparse.
  by rewrite (loadCheckpointConfig_pointer fs cwd pointer Hptr Hid), Hdoc, Hparse.
Qed.

(** C10.  With a pointer file that holds a non-empty checkpoint id, the
    loader returns the built-in defaults (enabled, 2 retries, a buffer of 5,
    the marker [[CHECKPOINT_COMPLETE]], no provider) when [thread.json] is
    missing and when it parses but has no [smartContinue] section; it returns
    null when the pointer file or [thread.json] cannot be read and when
    [thread.json] does not parse. *)
Theorem loadCheckpointConfig_defaults fs cwd :
  let defaults := {|
    l_enabled := JBool true;
    l_model := JStr "claude-haiku-4-5-20251001";
    l_maxRetries := JNum 2;
    l_bufferSize := JNum 5;
    l_completionMarker := JStr "[CHECKPOINT_COMPLETE]";
    l_timeoutMs := JNum 8000;
    l_continueMessage := JStr "好的，请你继续来写。你在完成任务之前停下了，请从你停止的地方继续。";
    l_provider := None |} in
  (∀ pointer,
     fs (currentFile cwd) = Contents pointer →
     trim pointer ≠ "" →
     let thread_json := fs (threadJsonPath cwd (trim pointer)) in
     (thread_json = Missing → loadCheckpointConfig fs cwd = Some defaults)
     ∧ (∀ doc threadData,
          thread_json = Contents doc →
          JSON_parse doc = Some threadData →
          oprop (oprop (Some threadData) "config") "smartContinue" = None →
          loadCheckpointConfig fs cwd = Some defaults)
     ∧ (thread_json = Unreadable → loadCheckpointConfig fs cwd = None)
     ∧ (∀ doc,
          thread_json = Contents doc →
          JSON_parse doc = None →
          loadCheckpointConfig fs cwd = None))
  ∧ (fs (currentFile cwd) = Unreadable → loadCheckpointConfig fs cwd = None).
Proof.
  cbv zeta. split.
  - intros pointer Hptr Hid.
    rewrite (loadCheckpointConfig_pointer fs cwd pointer Hptr Hid).
    repeat split.
    + by intros ->.
    + intros doc threadData -> -> Hsc. cbv zeta. by rewrite Hsc.
    + by intros ->.
    + by intros doc -> ->.
  - intros Hptr. unfold loadCheckpointConfig, existsSync, readFileSync.
    by rewrite Hptr.
Qed.

End WithRuntime.

Lemma loadCheckpointConfig_defaults_witness :
  loadCheckpointConfig Fixture.fs_pointer_only "/work" = Some (as_loaded DEFAULT_SMART_CONTINUE)
  ∧ loadCheckpointConfig Fixture.fs_no_section "/work" = Some (as_loaded DEFAULT_SMART_CONTINUE)
  ∧ loadCheckpointConfig Fixture.fs_bad_json "/work" = None.
Proof.
  split; [|split].
  - apply (proj1 (loadCheckpointConfig_defaults (H:=Fixture.ascii_runtime) Fixture.fs_pointer_only "/work")
                 (" t1" +:+ LF)); vm_compute; [reflexivity | discriminate | reflexivity].
  - apply (proj1 (proj2 (proj1 (loadCheckpointConfig_defaults (H:=Fixture.ascii_runtime) Fixture.fs_no_section "/work")
                                (" t1" +:+ LF) ltac:(vm_compute; reflexivity)
                                ltac:(vm_compute; discriminate)))
                 "{}" (JObj [])); vm_compute; reflexivity.
  - apply (proj2 (proj2 (proj2 (proj1 (loadCheckpointConfig_defaults (H:=Fixture.ascii_runtime) Fixture.fs_bad_json "/work")
                                       (" t1" +:+ LF) ltac:(vm_compute; reflexivity)
                                ltac:(vm_compute; discriminate))))
                 "{oops"); vm_compute; reflexivity.
Defined.

End LoaderFacts.

(** ** The session driver *)

Module DriverFacts.
Import Js Sdk SmartContinue ClaudeRemote JsFacts AssessorFacts.

Section Driver.
Context `{JsRuntime} {Mode : Type}.
Context (env : gmap string string).

Implicit Types (st : State (Mode:=Mode)) (input : StepInput (Mode:=Mode)).
Implicit Types (config : option SmartContinueConfig) (message : SDKMessage).

(** Runs a piece of the loop body on a symbolic state. *)
Ltac run_body :=
  unfold handle, buffer_text, on_system, on_result, smart_continue, on_user,
    updateThinking, emit, modify, get, skip, continue_, return_, raise,
    mbind, mret, Body_bind, Body_ret.

Lemma auto_continue_gate_spec subtype num_turns st :
  auto_continue_gate subtype num_turns st = true ↔
  subtype = "success" ∧ num_turns ≤ 1 ∧ isCompactCommand st = false
  ∧ (autoContinueCount st < 3)%nat.
Proof.
  unfold auto_continue_gate, MAX_AUTO_CONTINUE.
  rewrite !andb_true_iff, String.eqb_eq, Z.leb_le, negb_true_iff, Nat.ltb_lt.
  tauto.
Qed.

(** The state after a result message on which the first gate fires. *)
Lemma handle_auto_continue config input subtype num_turns st :
  auto_continue_gate subtype num_turns st = true →
  handle env config input (ResultMessage subtype num_turns) st =
    (Continue,
     {| autoContinueCount := S (autoContinueCount st);
        smartContinueCount := smartContinueCount st;
        recentAssistantTexts := recentAssistantTexts st;
        isCompactCommand := isCompactCommand st;
        thinking := true;
        mode := mode st;
        log := log st ++ [OnMessage (ResultMessage subtype num_turns)]
                 ++ (if thinking st then [OnThinkingChange false] else [])
                 ++ [Push AUTO_CONTINUE_MESSAGE; OnThinkingChange true] |}).
Proof.
  intros Hgate. run_body. simpl.
  destruct (thinking st) eqn:Hth; simpl.
  - unfold auto_continue_gate in *. simpl in *. rewrite Hgate. simpl.
    unfold set_autoContinueCount, set_thinking, add_log. simpl.
    by rewrite <- !app_assoc.
  - unfold auto_continue_gate in *. simpl in *. rewrite Hgate. simpl.
    rewrite Hth. simpl.
    unfold set_autoContinueCount, set_thinking, add_log. simpl.
    by rewrite <- !app_assoc.
Qed.

(** Case analysis on every test the body makes. *)
Ltac body_cases :=
  repeat (simpl;
          match goal with
          | p : (_ * _)%type |- _ => destruct p
          | |- context [if ?b then _ else _] => destruct b eqn:?
          | |- context [match ?x with Some _ => _ | None => _ end] => destruct x eqn:?
          | |- context [match ?x with Ok _ => _ | Throw _ => _ end] => destruct x eqn:?
          end); simpl.

Lemma handle_result_reset config input subtype num_turns st :
  auto_continue_gate subtype num_turns st = false →
  autoContinueCount (snd (handle env config input (ResultMessage subtype num_turns) st)) = 0%nat.
Proof.
  intros Hgate. run_body. unfold auto_continue_gate in *. simpl.
  destruct (thinking st); simpl; rewrite Hgate; simpl;
    destruct config as [cfg|]; body_cases; reflexivity.
Qed.

Lemma tool_aborted_state input blocks st : snd (tool_aborted input blocks st) = st.
Proof.
  induction blocks as [|c rest IH]; simpl; [done|].
  destruct (_ && _); [done | apply IH].
Qed.

Lemma tool_aborted_flow input blocks st :
  fst (tool_aborted input blocks st) = Next () ∨ fst (tool_aborted input blocks st) = Return.
Proof.
  induction blocks as [|c rest IH]; simpl; [by left|].
  destruct (_ && _); [by right | apply IH].
Qed.

#[local] Arguments push_recent : simpl never.

(** An event leaves in the buffer what lines 176-182 put there. *)
Lemma handle_buffer config input message st :
  recentAssistantTexts (snd (handle env config input message st)) =
    push_recent config message (recentAssistantTexts st).
Proof.
  destruct message as [content|subtype session_id|subtype num_turns|role content|type];
    run_body; try (body_cases; reflexivity).
  simpl. destruct content as [text|blocks]; [reflexivity|].
  destruct (String.eqb role "user"); [|reflexivity].
  by rewrite tool_aborted_state.
Qed.

(** Only a result message changes the streak counter. *)
Lemma handle_other_counter config input message st :
  (∀ subtype num_turns, message ≠ ResultMessage subtype num_turns) →
  autoContinueCount (snd (handle env config input message st)) = autoContinueCount st.
Proof.
  intros Hother.
  destruct message as [content|subtype session_id|subtype num_turns|role content|type];
    run_body; try (body_cases; reflexivity).
  - by destruct (Hother subtype num_turns).
  - simpl. destruct content as [text|blocks]; [reflexivity|].
    destruct (String.eqb role "user"); [|reflexivity].
    by rewrite tool_aborted_state.
Qed.

(** No run of the loop body throws. *)
Lemma handle_no_raise config input message st e :
  fst (handle env config input message st) ≠ Raise e.
Proof.
  destruct message as [content|subtype session_id|subtype num_turns|role content|type];
    run_body; try (body_cases; discriminate).
  - destruct config as [cfg|]; simpl.
    + body_cases; try discriminate.
      all: match goal with
      | Hthrow : assessTaskCompletion ?e ?f ?t ?c = Throw _ |- _ =>
          destruct (assessTaskCompletion_total e f t c) as [isDone HisDone]; congruence
      end.
    + body_cases; discriminate.
  - simpl. destruct content as [text|blocks]; [discriminate|].
    destruct (String.eqb role "user"); [|discriminate].
    destruct (tool_aborted_flow input blocks
                (add_log (OnMessage (UserMessage role (ContentBlocks blocks)))
                   (set_recentAssistantTexts
                      (push_recent config (UserMessage role (ContentBlocks blocks))
                         (recentAssistantTexts st)) st))) as [-> | ->]; discriminate.
Qed.

Lemma new_actions_app st st' (added : list Action) :
  log st' = log st ++ added → new_actions st st' = added.
Proof. unfold new_actions. intros ->. by rewrite drop_app_length. Qed.

(** The run of a result message that passes the first gate and finds the
    completion marker in the buffer. *)
Lemma handle_marker_found cfg input subtype num_turns st :
  auto_continue_gate subtype num_turns st = false →
  some (λ t, includes t (completionMarker cfg)) (recentAssistantTexts st) = true →
  let r := handle env (Some cfg) input (ResultMessage subtype num_turns) st in
  log (snd r) =
    log st ++ [OnMessage (ResultMessage subtype num_turns)]
      ++ (if thinking st then [OnThinkingChange false] else [])
      ++ (if isCompactCommand st then [OnCompletionEvent "Compaction completed"] else [])
      ++ [OnReady; NextMessage]
      ++ match in_next input with
         | None => [End]
         | Some (next, _) => [Push next]
         end
  ∧ fst r = match in_next input with
            | None => Return
            | Some _ => Next ()
            end
  ∧ smartContinueCount (snd r) = smartContinueCount st.
Proof.
  intros Hgate Hmarker. run_body. unfold auto_continue_gate, push_recent in *. simpl.
  destruct (thinking st); simpl; rewrite Hgate; simpl;
    destruct (enabled cfg && negb (isCompactCommand st)
              && (Z.of_nat (smartContinueCount st) <? maxRetries cfg)); simpl;
    rewrite ?Hmarker; simpl;
    destruct (isCompactCommand st); simpl;
    destruct (in_next input) as [[next next_mode]|]; simpl;
    rewrite <- ?app_assoc; done.
Qed.

(** The run of a result message on which the first gate does not fire:
    the streak counter is reset and the turn goes on to the second gate.
    Either the turn completes, after at most one call of the assessor, or
    the second gate continues it, after one call of the assessor. *)
Lemma handle_result_passes config input subtype num_turns st :
  auto_continue_gate subtype num_turns st = false →
  let r := handle env config input (ResultMessage subtype num_turns) st in
  let base :=
    [OnMessage (ResultMessage subtype num_turns)]
      ++ (if thinking st then [OnThinkingChange false] else []) in
  let finish :=
    (if isCompactCommand st then [OnCompletionEvent "Compaction completed"] else [])
      ++ [OnReady; NextMessage]
      ++ match in_next input with
         | None => [End]
         | Some (next, _) => [Push next]
         end in
  autoContinueCount (snd r) = 0%nat
  ∧ ((∃ assessed,
        (assessed = [] ∨ assessed = [Assess (recentAssistantTexts st)])
        ∧ log (snd r) = log st ++ base ++ assessed ++ finish
        ∧ fst r = match in_next input with
                  | None => Return
                  | Some _ => Next ()
                  end)
     ∨ (∃ cfg,
          config = Some cfg
          ∧ log (snd r) =
              log st ++ base ++ [Assess (recentAssistantTexts st); Push (continueMessage cfg);
                                 OnThinkingChange true]
          ∧ fst r = Continue)).
Proof.
  intros Hgate. cbv zeta. split; [by apply handle_result_reset|].
  destruct config as [cfg|].
  - destruct (assessTaskCompletion_total env (in_fetch input) (recentAssistantTexts st) cfg)
      as [isDone Hdone].
    run_body. unfold auto_continue_gate, push_recent in *. simpl.
    destruct (thinking st) eqn:Hthinking; simpl; rewrite Hgate; simpl;
      destruct (isCompactCommand st) eqn:Hcompact; simpl; rewrite ?Hcompact; simpl;
      destruct (enabled cfg),
        (Z.of_nat (smartContinueCount st) <? maxRetries cfg),
        (some (λ t, includes t (completionMarker cfg)) (recentAssistantTexts st)),
        (String.eqb subtype "success"), (1 <? num_turns); simpl;
      rewrite ?Hdone; simpl;
      destruct isDone; simpl; rewrite ?Hcompact, ?Hthinking; simpl;
      destruct (in_next input) as [[next next_mode]|]; simpl;
      rewrite <- ?app_assoc; simpl;
      first [ left; exists []; split; [by left|]; split; reflexivity
            | left; eexists; split; [by right|]; split; reflexivity
            | right; exists cfg; split; [reflexivity|]; split; reflexivity ].
  - left. exists []. split; [by left|].
    run_body. unfold auto_continue_gate, push_recent in *. simpl.
    destruct (thinking st) eqn:Hthinking; simpl; rewrite Hgate; simpl;
      destruct (isCompactCommand st) eqn:Hcompact; simpl; rewrite ?Hcompact; simpl;
      destruct (in_next input) as [[next next_mode]|]; simpl;
      rewrite <- ?app_assoc; done.
Qed.

(** C1.  On a result message the first gate fires exactly when the subtype
    is success, the number of turns is at most 1, no compaction command is in
    flight and the streak counter is below 3.  When it fires the body ends
    with [continue], the counter is one more, and the only actions are the
    forwarding of the message, the thinking notifications and the push of the
    fixed continuation message: the assessor is not called, no readiness
    signal is sent and no next message is requested.  When one of the four
    conditions fails it does not fire: the counter is zero and nothing is
    pushed on its account.  Either the turn completes, with the readiness
    signal and the request for the next message, after at most one call of
    the assessor; or the body ends with [continue] on account of the second
    gate, which has then called the assessor and pushes the continuation
    message of the configuration. *)
Theorem auto_continue_gate_fires config input subtype num_turns st :
  let r := handle env config input (ResultMessage subtype num_turns) st in
  let fires :=
    subtype = "success" ∧ num_turns ≤ 1 ∧ isCompactCommand st = false
    ∧ (autoContinueCount st < 3)%nat in
  let base :=
    [OnMessage (ResultMessage subtype num_turns)]
      ++ (if thinking st then [OnThinkingChange false] else []) in
  let finish :=
    (if isCompactCommand st then [OnCompletionEvent "Compaction completed"] else [])
      ++ [OnReady; NextMessage]
      ++ match in_next input with
         | None => [End]
         | Some (next, _) => [Push next]
         end in
  (fires
   ∧ r = (Continue,
          {| autoContinueCount := S (autoContinueCount st);
             smartContinueCount := smartContinueCount st;
             recentAssistantTexts := recentAssistantTexts st;
             isCompactCommand := isCompactCommand st;
             thinking := true;
             mode := mode st;
             log := log st ++ [OnMessage (ResultMessage subtype num_turns)]
                      ++ (if thinking st then [OnThinkingChange false] else [])
                      ++ [Push "Continue. You stopped before completing the task. Pick up where you left off.";
                          OnThinkingChange true] |})
   ∧ (∀ a, a ∈ new_actions st (snd r) →
           a ≠ OnReady ∧ a ≠ NextMessage ∧ a ≠ End ∧ ∀ texts, a ≠ Assess texts))
  ∨ (¬ fires
     ∧ autoContinueCount (snd r) = 0%nat
     ∧ ((∃ assessed,
           (assessed = [] ∨ assessed = [Assess (recentAssistantTexts st)])
           ∧ new_actions st (snd r) = base ++ assessed ++ finish
           ∧ fst r = match in_next input with
                     | None => Return
                     | Some _ => Next ()
                     end)
        ∨ (∃ cfg,
             config = Some cfg
             ∧ new_actions st (snd r) =
                 base ++ [Assess (recentAssistantTexts st); Push (continueMessage cfg);
                          OnThinkingChange true]
             ∧ fst r = Continue))).
Proof.
  cbv zeta. destruct (auto_continue_gate subtype num_turns st) eqn:Hgate.
  - left. split; [by apply auto_continue_gate_spec|].
    rewrite (handle_auto_continue config input subtype num_turns st Hgate).
    split; [reflexivity|]. intros a Ha.
    erewrite new_actions_app in Ha by reflexivity.
    destruct (thinking st); simpl in Ha;
      repeat (apply elem_of_cons in Ha as [->|Ha]; [by repeat split|]);
      by apply elem_of_nil in Ha.
  - right. split.
    { rewrite <- auto_continue_gate_spec. congruence. }
    destruct (handle_result_passes config input subtype num_turns st Hgate)
      as (Hreset & [(assessed & Hassessed & Hlog & Hflow)|(cfg & Hcfg & Hlog & Hflow)]).
    + split; [exact Hreset|]. left. exists assessed.
      split; [exact Hassessed|]. split; [|exact Hflow].
      by apply new_actions_app.
    + split; [exact Hreset|]. right. exists cfg.
      split; [exact Hcfg|]. split; [|exact Hflow].
      by apply new_actions_app.
Qed.

(** C2.  A result message on which the first gate does not fire leaves the
    streak counter at zero, in particular every result message with more
    than one turn; and an event that lowers the counter is such a message. *)
Theorem autoContinueCount_reset config input message st :
  let after := snd (handle env config input message st) in
  (∀ subtype num_turns,
     message = ResultMessage subtype num_turns →
     ¬ (subtype = "success" ∧ num_turns ≤ 1 ∧ isCompactCommand st = false
        ∧ (autoContinueCount st < 3)%nat) →
     autoContinueCount after = 0%nat)
  ∧ (∀ subtype num_turns,
       message = ResultMessage subtype num_turns →
       1 < num_turns →
       autoContinueCount after = 0%nat)
  ∧ ((autoContinueCount after < autoContinueCount st)%nat →
     autoContinueCount after = 0%nat
     ∧ ∃ subtype num_turns,
         message = ResultMessage subtype num_turns
         ∧ ¬ (subtype = "success" ∧ num_turns ≤ 1 ∧ isCompactCommand st = false
              ∧ (autoContinueCount st < 3)%nat)).
Proof.
  cbv zeta. split; [|split].
  - intros subtype num_turns -> Hno. apply handle_result_reset.
    rewrite <- auto_continue_gate_spec in Hno. by destruct (auto_continue_gate _ _ _).
  - intros subtype num_turns -> Hturns. apply handle_result_reset.
    destruct (auto_continue_gate subtype num_turns st) eqn:Hgate; [|done].
    apply auto_continue_gate_spec in Hgate. lia.
  - intros Hless.
    destruct message as [content|subtype session_id|subtype num_turns|role content|type];
      try (rewrite handle_other_counter in Hless by done; lia).
    destruct (auto_continue_gate subtype num_turns st) eqn:Hgate.
    + rewrite (handle_auto_continue config input subtype num_turns st Hgate) in Hless.
      simpl in Hless. lia.
    + split; [by apply handle_result_reset|].
      exists subtype, num_turns. split; [done|].
      rewrite <- auto_continue_gate_spec. congruence.
Qed.

(** C3.  On a result message that reaches the second gate (the first did
    not fire), if an entry of the buffer contains the completion marker as a
    substring then the assessor is not called, the smart-continue counter is
    unchanged, and the turn completes: after the forwarding of the message
    come the compaction notice if one is due, the readiness signal and the
    request for the next message, which is pushed, or ends the session when
    there is none. *)
Theorem completion_marker_skips_assessor cfg input subtype num_turns st text :
  ¬ (subtype = "success" ∧ num_turns ≤ 1 ∧ isCompactCommand st = false
     ∧ (autoContinueCount st < 3)%nat) →
  text ∈ recentAssistantTexts st →
  (∃ before after, text = before +:+ completionMarker cfg +:+ after) →
  let r := handle env (Some cfg) input (ResultMessage subtype num_turns) st in
  (∀ texts, Assess texts ∉ new_actions st (snd r))
  ∧ new_actions st (snd r) =
      [OnMessage (ResultMessage subtype num_turns)]
        ++ (if thinking st then [OnThinkingChange false] else [])
        ++ (if isCompactCommand st then [OnCompletionEvent "Compaction completed"] else [])
        ++ [OnReady; NextMessage]
        ++ match in_next input with
           | None => [End]
           | Some (next, _) => [Push next]
           end
  ∧ fst r = match in_next input with
            | None => Return
            | Some _ => Next ()
            end
  ∧ smartContinueCount (snd r) = smartContinueCount st.
Proof.
  intros Hno Hin Hsub. cbv zeta.
  assert (Hgate : auto_continue_gate subtype num_turns st = false).
  { rewrite <- auto_continue_gate_spec in Hno. by destruct (auto_continue_gate _ _ _). }
  assert (Hmarker : some (λ t, includes t (completionMarker cfg)) (recentAssistantTexts st) = true).
  { apply some_spec. exists text. split; [done | by apply includes_spec]. }
  destruct (handle_marker_found cfg input subtype num_turns st Hgate Hmarker)
    as (Hlog & Hflow & Hcount).
  apply new_actions_app in Hlog. rewrite Hlog. repeat split; try done.
  intros texts Hassess.
  destruct (thinking st), (isCompactCommand st), (in_next input) as [[next next_mode]|];
    simpl in Hassess;
    repeat (apply elem_of_cons in Hassess as [Heq|Hassess]; [discriminate Heq|]);
    by apply elem_of_nil in Hassess.
Qed.

(** *** The rolling buffer *)

Lemma join_truthy sep x rest : truthy x = true → truthy (join sep (x :: rest)) = true.
Proof.
  intros Hx. apply truthy_true in Hx. apply truthy_true.
  destruct x as [|c x]; [done|]. destruct rest; simpl; [done|].
  by rewrite append_cons.
Qed.

(** The text extracted from a message is never empty. *)
Lemma extractAssistantText_truthy message text :
  extractAssistantText message = Some text → truthy text = true.
Proof.
  destruct message as [content| | | |]; simpl; try done.
  destruct (omap _ _) as [|x rest] eqn:Htexts; simpl; [done|].
  intros Heq. injection Heq as <-.
  assert (Hx : x ∈ x :: rest) by apply list_elem_of_here.
  rewrite <- Htexts in Hx. apply list_elem_of_omap in Hx as (block & _ & Hblock).
  apply join_truthy.
  destruct (String.eqb _ _); [|done]. destruct (block_text block) as [t|]; [|done].
  destruct (truthy t) eqn:Ht; [|done]. by injection Hblock as <-.
Qed.

Lemma push_recent_text cfg message text recent :
  extractAssistantText message = Some text →
  push_recent (Some cfg) message recent =
    if bufferSize cfg <? Z.of_nat (length (recent ++ [text])) then tail (recent ++ [text])
    else recent ++ [text].
Proof.
  intros Htext. unfold push_recent. rewrite Htext.
  by rewrite (extractAssistantText_truthy message text Htext).
Qed.

Lemma push_recent_bounded cfg message recent :
  Z.of_nat (length recent) ≤ bufferSize cfg →
  Z.of_nat (length (push_recent (Some cfg) message recent)) ≤ bufferSize cfg.
Proof.
  intros Hbound. unfold push_recent.
  destruct (extractAssistantText message) as [text|]; [|done].
  destruct (truthy text); [|done]. cbv zeta.
  destruct (bufferSize cfg <? _) eqn:Hfull.
  - rewrite length_tl, length_app. simpl. lia.
  - apply Z.ltb_ge in Hfull. done.
Qed.

Lemma iterate_bounded cfg events stream_end st :
  Z.of_nat (length (recentAssistantTexts st)) ≤ bufferSize cfg →
  Z.of_nat (length (recentAssistantTexts (snd (iterate env (Some cfg) events stream_end st))))
    ≤ bufferSize cfg.
Proof.
  revert st. induction events as [|[message input] rest IH]; intros st Hbound; simpl.
  - by destruct stream_end.
  - pose proof (handle_buffer (Some cfg) input message st) as Hbuf.
    pose proof (push_recent_bounded cfg message _ Hbound) as Hnext.
    rewrite <- Hbuf in Hnext.
    destruct (handle env (Some cfg) input message st) as [[] st']; simpl in *; auto.
Qed.

Lemma updateThinking_buffer b st :
  recentAssistantTexts (snd (updateThinking b st)) = recentAssistantTexts st.
Proof. run_body. by destruct (negb _). Qed.

Lemma before_loop_buffer parse (initial : option (string * Mode)) st :
  before_loop parse initial = inl st ∨ before_loop parse initial = inr st →
  recentAssistantTexts st = [].
Proof.
  unfold before_loop. destruct initial as [[message initial_mode]|].
  - destruct (parse message); intros [Heq|Heq]; try discriminate;
      injection Heq as <-; by rewrite ?updateThinking_buffer.
  - intros [Heq|Heq]; [by injection Heq as <- | discriminate].
Qed.

(** C7, amended.  For a buffer size that is not negative: whatever the
    first message, the events and the end of the stream, the buffer holds at
    most [bufferSize] entries when the driver exits; every event keeps it
    so; and an assistant text that arrives when the buffer holds
    [bufferSize] entries is appended while the oldest entry is dropped, the
    others keeping their order. *)
Theorem recent_texts_bounded cfg :
  0 ≤ bufferSize cfg →
  (∀ parse (initial : option (string * Mode)) events stream_end,
     Z.of_nat (length (recentAssistantTexts
                         (snd (claudeRemote parse env (Some cfg) initial events stream_end))))
       ≤ bufferSize cfg)
  ∧ (∀ input message st,
       Z.of_nat (length (recentAssistantTexts st)) ≤ bufferSize cfg →
       Z.of_nat (length (recentAssistantTexts (snd (handle env (Some cfg) input message st))))
         ≤ bufferSize cfg)
  ∧ (∀ input message text st,
       extractAssistantText message = Some text →
       Z.of_nat (length (recentAssistantTexts st)) = bufferSize cfg →
       recentAssistantTexts (snd (handle env (Some cfg) input message st)) =
         tail (recentAssistantTexts st ++ [text])
       ∧ ∀ oldest others,
           recentAssistantTexts st = oldest :: others →
           recentAssistantTexts (snd (handle env (Some cfg) input message st)) =
             others ++ [text]).
Proof.
  intros Hsize. split; [|split].
  - intros parse initial events stream_end. unfold claudeRemote.
    destruct (before_loop parse initial) as [st|st] eqn:Hbefore.
    + simpl. rewrite (before_loop_buffer parse initial st) by auto. simpl. lia.
    + unfold guarded_loop.
      pose proof (iterate_bounded cfg events stream_end st) as Hiter.
      destruct (iterate env (Some cfg) events stream_end st) as [completion st1].
      simpl in *. rewrite updateThinking_buffer. apply Hiter.
      rewrite (before_loop_buffer parse initial st) by auto. simpl. lia.
  - intros input message st Hbound. rewrite handle_buffer.
    by apply push_recent_bounded.
  - intros input message text st Htext Hfull.
    rewrite handle_buffer, (push_recent_text cfg message text _ Htext).
    assert (Hover : (bufferSize cfg <? Z.of_nat (length (recentAssistantTexts st ++ [text])))
                    = true).
    { apply Z.ltb_lt. rewrite length_app. simpl. lia. }
    rewrite Hover. split; [done|]. by intros oldest others ->.
Qed.

(** *** The exit of the driver *)

Lemma updateThinking_false st : thinking (snd (updateThinking false st)) = false.
Proof. run_body. simpl. by destruct (thinking st) eqn:Hthinking. Qed.

(** The variable [thinking] is what the caller was last told. *)
Lemma handle_indicator config input message st :
  indicator (log st) = thinking st →
  indicator (log (snd (handle env config input message st))) =
    thinking (snd (handle env config input message st)).
Proof.
  unfold indicator. intros Hshown.
  destruct message as [content|subtype session_id|subtype num_turns|role content|type];
    run_body; simpl.
  - by rewrite foldl_snoc.
  - destruct (thinking st) eqn:Hthinking; body_cases; rewrite ?foldl_snoc; simpl; congruence.
  - destruct (thinking st) eqn:Hthinking; body_cases; rewrite ?foldl_snoc; simpl; congruence.
  - destruct content as [text|blocks]; simpl; [by rewrite foldl_snoc|].
    destruct (String.eqb role "user"); simpl; [|by rewrite foldl_snoc].
    rewrite tool_aborted_state. simpl. by rewrite foldl_snoc.
  - by rewrite foldl_snoc.
Qed.

Lemma updateThinking_indicator b st :
  indicator (log st) = thinking st →
  indicator (log (snd (updateThinking b st))) = thinking (snd (updateThinking b st)).
Proof.
  unfold indicator. intros Hshown. run_body. simpl.
  destruct (negb (eqb (thinking st) b)); simpl; rewrite ?foldl_snoc; simpl; congruence.
Qed.

Lemma iterate_indicator config events stream_end st :
  indicator (log st) = thinking st →
  indicator (log (snd (iterate env config events stream_end st))) =
    thinking (snd (iterate env config events stream_end st)).
Proof.
  revert st. induction events as [|[message input] rest IH]; intros st Hshown; simpl.
  - by destruct stream_end.
  - pose proof (handle_indicator config input message st Hshown) as Hnext.
    destruct (handle env config input message st) as [[] st']; simpl in *; auto.
Qed.

Lemma before_loop_indicator parse (initial : option (string * Mode)) st :
  before_loop parse initial = inl st ∨ before_loop parse initial = inr st →
  indicator (log st) = thinking st.
Proof.
  unfold before_loop. destruct initial as [[message initial_mode]|].
  - destruct (parse message); intros [Heq|Heq]; try discriminate;
      injection Heq as <-; try done; by apply updateThinking_indicator.
  - intros [Heq|Heq]; [by injection Heq as <- | discriminate].
Qed.

(** The loop ends by a return or by the failure of the stream. *)
Lemma iterate_completion config events stream_end st :
  fst (iterate env config events stream_end st) = Returned
  ∨ ∃ e, stream_end = Failed e ∧ fst (iterate env config events stream_end st) = Thrown e.
Proof.
  revert st. induction events as [|[message input] rest IH]; intros st; simpl.
  - destruct stream_end as [|e]; [by left | right; by exists e].
  - pose proof (handle_no_raise config input message st) as Hraise.
    destruct (handle env config input message st) as [[] st']; simpl in *; auto.
    by destruct (Hraise e).
Qed.

(** A loop that takes every event ends as the stream does. *)
Lemma iterate_consumes_all config events stream_end st :
  consumes_all env config events st = true →
  fst (iterate env config events stream_end st) =
    match stream_end with
    | Exhausted => Returned
    | Failed e => Thrown e
    end.
Proof.
  revert st. induction events as [|[message input] rest IH]; intros st; simpl.
  - by destruct stream_end.
  - destruct (handle env config input message st) as [[] st']; simpl; auto; done.
Qed.

(** C8.  When the driver exits the thinking indicator is inactive: the
    variable [thinking] is false and so is the last value the caller was
    told.  If the stream ends normally or fails with [AbortError] the driver
    returns.  If the stream fails with another error, and the driver has not
    returned before that failure, the driver throws that error.  The driver
    throws nothing else (no callback of [opts] throwing). *)
Theorem claudeRemote_exit parse config (initial : option (string * Mode)) events stream_end :
  let r := claudeRemote parse env config initial events stream_end in
  thinking (snd r) = false
  ∧ indicator (log (snd r)) = false
  ∧ (stream_end = Exhausted ∨ stream_end = Failed AbortError → fst r = Returned)
  ∧ (∀ e st,
       stream_end = Failed e →
       e ≠ AbortError →
       before_loop parse initial = inr st →
       consumes_all env config events st = true →
       fst r = Thrown e)
  ∧ (∀ e, fst r = Thrown e → stream_end = Failed e ∧ e ≠ AbortError).
Proof.
  cbv zeta. unfold claudeRemote.
  pose proof (before_loop_indicator parse initial) as Hshown.
  destruct (before_loop parse initial) as [st|st] eqn:Hbefore.
  - assert (Hquiet : thinking st = false).
    { unfold before_loop in Hbefore. destruct initial as [[message initial_mode]|].
      - destruct (parse message); try discriminate. by injection Hbefore as <-.
      - by injection Hbefore as <-. }
    simpl. rewrite (Hshown st) by auto. by repeat split.
  - unfold guarded_loop.
    pose proof (iterate_completion config events stream_end st) as Hcompletion.
    pose proof (iterate_consumes_all config events stream_end st) as Hall.
    pose proof (iterate_indicator config events stream_end st (Hshown st (or_intror eq_refl)))
      as Hiter.
    destruct (iterate env config events stream_end st) as [completion st1].
    simpl in *. split; [apply updateThinking_false|]. split; [|split; [|split]].
    + rewrite (updateThinking_indicator false st1 Hiter). apply updateThinking_false.
    + intros Hend. destruct Hcompletion as [-> | (e & -> & ->)]; [done|].
      by destruct Hend as [? | [= ->]].
    + intros e st' -> Hne [= <-] Hconsumed. rewrite (Hall Hconsumed).
      by destruct e.
    + intros e Hthrown.
      destruct Hcompletion as [-> | (e' & -> & ->)]; [done|].
      destruct e'; [done|]. by injection Hthrown as <-.
Qed.

End Driver.

(** C7, the claim as stated, fails: with a buffer size of -1 every text
    is shifted out as soon as it is pushed, and the empty buffer holds more
    than -1 entries. *)
Lemma recent_texts_exceed_negative_size :
  let final :=
    snd (claudeRemote (λ _, no_command) ∅ (Some Fixture.config_negative_buffer)
           (Some ("do the task", tt))
           [(Fixture.assistant_says "working on it", Fixture.no_next Fixture.times_out)]
           Exhausted) in
  recentAssistantTexts final = []
  ∧ bufferSize Fixture.config_negative_buffer <
      Z.of_nat (length (recentAssistantTexts final)).
Proof. vm_compute. split; reflexivity. Qed.

Lemma completion_marker_skips_assessor_witness :
  new_actions
    (Fixture.thinking_with ["all steps finished [CHECKPOINT_COMPLETE]"] 0)
    (snd (handle Fixture.env_openai_only (Some DEFAULT_SMART_CONTINUE)
            (Fixture.no_next (Fixture.openai_answers "NOT_DONE"))
            (ResultMessage "success" 5)
            (Fixture.thinking_with ["all steps finished [CHECKPOINT_COMPLETE]"] 0))) =
    [OnMessage (ResultMessage "success" 5); OnThinkingChange false; OnReady; NextMessage; End]
  ∧ fst (handle Fixture.env_openai_only (Some DEFAULT_SMART_CONTINUE)
           (Fixture.no_next (Fixture.openai_answers "NOT_DONE"))
           (ResultMessage "success" 5)
           (Fixture.thinking_with ["all steps finished [CHECKPOINT_COMPLETE]"] 0)) = Return.
Proof.
  destruct (completion_marker_skips_assessor Fixture.env_openai_only DEFAULT_SMART_CONTINUE
              (Fixture.no_next (Fixture.openai_answers "NOT_DONE")) "success" 5
              (Fixture.thinking_with ["all steps finished [CHECKPOINT_COMPLETE]"] 0)
              "all steps finished [CHECKPOINT_COMPLETE]")
    as (_ & Hnew & Hflow & _).
  - intros (_ & Hturns & _). lia.
  - apply list_elem_of_here.
  - exists "all steps finished ", "". reflexivity.
  - exact (conj Hnew Hflow).
Defined.

Lemma autoContinueCount_reset_witness :
  autoContinueCount
    (snd (handle Fixture.env_openai_only None (Fixture.no_next Fixture.times_out)
            (ResultMessage "success" 5) (Fixture.thinking_with [] 2))) = 0%nat.
Proof.
  apply (proj1 (proj2 (autoContinueCount_reset Fixture.env_openai_only None
                         (Fixture.no_next Fixture.times_out)
                         (ResultMessage "success" 5) (Fixture.thinking_with [] 2)))
               "success" 5 eq_refl).
  lia.
Defined.

Lemma claudeRemote_exit_witness :
  fst (claudeRemote (λ _, no_command) Fixture.env_openai_only None (Some ("do the task", tt))
         [(Fixture.assistant_says "working on it", Fixture.no_next Fixture.times_out)]
         (Failed (JsError "Error" "socket hang up"))) =
    Thrown (JsError "Error" "socket hang up").
Proof.
  eapply (proj1 (proj2 (proj2 (proj2 (claudeRemote_exit Fixture.env_openai_only
                                        (λ _, no_command) None (Some ("do the task", tt))
                                        [(Fixture.assistant_says "working on it",
                                          Fixture.no_next Fixture.times_out)]
                                        (Failed (JsError "Error" "socket hang up"))))))).
  - reflexivity.
  - discriminate.
  - reflexivity.
  - vm_compute. reflexivity.
Defined.

Lemma recent_texts_bounded_witness :
  recentAssistantTexts
    (snd (handle Fixture.env_openai_only (Some DEFAULT_SMART_CONTINUE)
            (Fixture.no_next Fixture.times_out) (Fixture.assistant_says "f")
            (Fixture.thinking_with ["a"; "b"; "c"; "d"; "e"] 0))) =
    ["b"; "c"; "d"; "e"; "f"].
Proof.
  destruct (recent_texts_bounded Fixture.env_openai_only DEFAULT_SMART_CONTINUE (Mode:=unit))
    as (_ & _ & Hfifo).
  - simpl. lia.
  - apply (Hfifo (Fixture.no_next Fixture.times_out) (Fixture.assistant_says "f") "f"
             (Fixture.thinking_with ["a"; "b"; "c"; "d"; "e"] 0));
      reflexivity.
Defined.

(** The first gate on concrete turns: a premature stop with an empty
    streak is continued; the same stop with a streak of 3 completes the
    turn. *)
Example premature_stop_is_continued :
  handle Fixture.env_openai_only None (Fixture.no_next Fixture.times_out)
    (ResultMessage "success" 1) (Fixture.thinking_with [] 0) =
    (Continue,
     {| autoContinueCount := 1; smartContinueCount := 0; recentAssistantTexts := [];
        isCompactCommand := false; thinking := true; mode := Some tt;
        log := [NextMessage; Push "do the task"; OnMessage (ResultMessage "success" 1);
                OnThinkingChange false; Push AUTO_CONTINUE_MESSAGE; OnThinkingChange true] |}).
Proof. vm_compute. reflexivity. Qed.

Example streak_of_three_completes :
  handle Fixture.env_openai_only None (Fixture.no_next Fixture.times_out)
    (ResultMessage "success" 1) (Fixture.thinking_with [] 3) =
    (Return,
     {| autoContinueCount := 0; smartContinueCount := 0; recentAssistantTexts := [];
        isCompactCommand := false; thinking := false; mode := Some tt;
        log := [NextMessage; Push "do the task"; OnMessage (ResultMessage "success" 1);
                OnThinkingChange false; OnReady; NextMessage; End] |}).
Proof. vm_compute. reflexivity. Qed.

(** The second gate on a concrete turn without the marker: the assessor is
    called, answers that the task is not done, and the configured message
    is pushed. *)
Example unfinished_turn_is_continued :
  handle Fixture.env_openai_only (Some DEFAULT_SMART_CONTINUE)
    (Fixture.no_next (Fixture.openai_answers "NOT_DONE"))
    (ResultMessage "success" 5) (Fixture.thinking_with ["working on it"] 2) =
    (Continue,
     {| autoContinueCount := 0; smartContinueCount := 1;
        recentAssistantTexts := ["working on it"];
        isCompactCommand := false; thinking := true; mode := Some tt;
        log := [NextMessage; Push "do the task"; OnMessage (ResultMessage "success" 5);
                OnThinkingChange false; Assess ["working on it"];
                Push (continueMessage DEFAULT_SMART_CONTINUE); OnThinkingChange true] |}).
Proof. vm_compute. reflexivity. Qed.

(** The exit on concrete streams: a cancelled stream, a broken one, and a
    session whose caller has nothing more to say. *)
Example cancelled_stream_returns :
  claudeRemote (λ _, no_command) Fixture.env_openai_only None (Some ("do the task", tt))
    [(Fixture.assistant_says "working on it", Fixture.no_next Fixture.times_out)]
    (Failed AbortError) =
    (Returned,
     {| autoContinueCount := 0; smartContinueCount := 0; recentAssistantTexts := [];
        isCompactCommand := false; thinking := false; mode := Some tt;
        log := [NextMessage; Push "do the task"; OnThinkingChange true;
                OnMessage (Fixture.assistant_says "working on it");
                OnThinkingChange false] |}).
Proof. vm_compute. reflexivity. Qed.

Example broken_stream_throws :
  claudeRemote (λ _, no_command) Fixture.env_openai_only None (Some ("do the task", tt))
    [(Fixture.assistant_says "working on it", Fixture.no_next Fixture.times_out)]
    (Failed (JsError "Error" "socket hang up")) =
    (Thrown (JsError "Error" "socket hang up"),
     {| autoContinueCount := 0; smartContinueCount := 0; recentAssistantTexts := [];
        isCompactCommand := false; thinking := false; mode := Some tt;
        log := [NextMessage; Push "do the task"; OnThinkingChange true;
                OnMessage (Fixture.assistant_says "working on it");
                OnThinkingChange false] |}).
Proof. vm_compute. reflexivity. Qed.

Example finished_session_returns :
  claudeRemote (λ _, no_command) Fixture.env_openai_only None (Some ("do the task", tt))
    [(ResultMessage "success" 4, Fixture.no_next Fixture.times_out)]
    (Failed (JsError "Error" "socket hang up")) =
    (Returned,
     {| autoContinueCount := 0; smartContinueCount := 0; recentAssistantTexts := [];
        isCompactCommand := false; thinking := false; mode := Some tt;
        log := [NextMessage; Push "do the task"; OnThinkingChange true;
                OnMessage (ResultMessage "success" 4); OnThinkingChange false;
                OnReady; NextMessage; End] |}).
Proof. vm_compute. reflexivity. Qed.

End DriverFacts.

(** * Further properties of the code *)

(** ** The provider selector, continued *)

Module SelectorExtras.
Import Js Sdk SmartContinue Setup JsFacts SelectorFacts.

Lemma find_provider_none env :
  List.find (λ p, truthy (credential env p)) [anthropic; openai; gemini] = None ↔
  ∀ p, credential env p = "".
Proof.
  split.
  - intros Hnone p. apply truthy_false.
    apply (List.find_none _ _ Hnone p). destruct p; simpl; auto.
  - intros Hall. cbn [List.find].
    rewrite (proj2 (truthy_false _) (Hall anthropic)), (proj2 (truthy_false _) (Hall openai)),
      (proj2 (truthy_false _) (Hall gemini)). reflexivity.
Qed.

(** X1.  The selector returns null exactly when none of the three
    providers has a credential in the environment, whatever the
    configuration says. *)
Theorem detectProvider_none env config :
  detectProvider env config = None ↔ ∀ p, credential env p = "".
Proof.
  destruct (explicit_choice env config) eqn:Hexp.
  - unfold explicit_choice in Hexp. destruct (provider config) as [p|] eqn:Hp; [|done].
    rewrite (detectProvider_explicit env config p Hp Hexp). split; [done|].
    intros Hall. apply truthy_true in Hexp. by destruct (Hexp (Hall p)).
  - rewrite (detectProvider_auto env config Hexp), <- find_provider_none.
    by destruct (List.find _ _).
Qed.

(** X2.  Every configuration the selector returns names one of the three
    providers and carries that provider's credential, which is not empty, and
    that provider's base URL. *)
Theorem detectProvider_credential env config pc :
  detectProvider env config = Some pc →
  pc_apiKey pc ≠ ""
  ∧ ∃ p, pc_provider pc = provider_name p
         ∧ pc_apiKey pc = credential env p
         ∧ pc_baseUrl pc = base_url env p.
Proof.
  intros Hsome. destruct (explicit_choice env config) eqn:Hexp.
  - unfold explicit_choice in Hexp. destruct (provider config) as [p|] eqn:Hp; [|done].
    rewrite (detectProvider_explicit env config p Hp Hexp) in Hsome.
    injection Hsome as <-. simpl. split; [by apply truthy_true | by exists p].
  - rewrite (detectProvider_auto env config Hexp) in Hsome.
    destruct (List.find _ _) as [p|] eqn:Hfind; [|done].
    injection Hsome as <-. simpl.
    split; [apply truthy_true; by apply find_provider_name | by exists p].
Qed.

Lemma detectProvider_credential_witness :
  pc_apiKey {| pc_provider := "openai"; pc_apiKey := "sk-test";
               pc_baseUrl := "https://api.openai.com"; pc_model := "gpt-4o-mini" |} ≠ "".
Proof.
  apply (detectProvider_credential Fixture.env_openai_only Fixture.config_anthropic).
  vm_compute. reflexivity.
Defined.

(** X3.  When the configured provider does not decide (none is named, or
    the one named has no credential), the provider is the first of
    anthropic, openai, gemini that has a credential. *)
Theorem detectProvider_priority env config :
  explicit_choice env config = false →
  pc_provider <$> detectProvider env config =
    provider_name <$> List.find (λ p, truthy (credential env p)) [anthropic; openai; gemini].
Proof.
  intros Hexp. rewrite (detectProvider_auto env config Hexp).
  by destruct (List.find _ _).
Qed.

Lemma detectProvider_priority_witness :
  pc_provider <$> detectProvider Fixture.env_openai_only Fixture.config_anthropic =
    Some "openai".
Proof.
  apply (detectProvider_priority Fixture.env_openai_only Fixture.config_anthropic).
  vm_compute. reflexivity.
Defined.

End SelectorExtras.

(** ** The checkpoint loader, continued *)

Module LoaderExtras.
Import Js Sdk SmartContinue Setup JsFacts LoaderFacts.

Section WithRuntime.
Context `{JsRuntime}.

(** X4.  The loader returns null in these cases and no other: the pointer
    file is missing or cannot be read, the id it holds is empty once
    trimmed, or [thread.json] exists and cannot be read or parsed. *)
Theorem loadCheckpointConfig_null fs cwd :
  loadCheckpointConfig fs cwd = None ↔
  fs (currentFile cwd) = Missing
  ∨ fs (currentFile cwd) = Unreadable
  ∨ ∃ pointer,
      fs (currentFile cwd) = Contents pointer
      ∧ (trim pointer = ""
         ∨ fs (threadJsonPath cwd (trim pointer)) = Unreadable
         ∨ ∃ doc, fs (threadJsonPath cwd (trim pointer)) = Contents doc
                  ∧ JSON_parse doc = None).
Proof.
  destruct (fs (currentFile cwd)) as [| |pointer] eqn:Hptr.
  - split; [by left|]. intros _.
    unfold loadCheckpointConfig, existsSync. by rewrite Hptr.
  - split; [by right; left|]. intros _.
    unfold loadCheckpointConfig, existsSync, readFileSync. by rewrite Hptr.
  - destruct (String.eqb (trim pointer) "") eqn:Hid.
    + apply String.eqb_eq in Hid. split.
      * intros _. right; right. exists pointer. split; [done | by left].
      * intros _. unfold loadCheckpointConfig, existsSync, readFileSync.
        rewrite Hptr. simpl. by rewrite (proj2 (truthy_false _) Hid).
    + apply String.eqb_neq in Hid.
      rewrite (loadCheckpointConfig_pointer fs cwd pointer Hptr Hid).
      destruct (fs (threadJsonPath cwd (trim pointer))) as [| |doc] eqn:Hdoc.
      * split; [done|]. intros [?|[?|(p & [= <-] & [?|[?|(doc & ? & _)]])]]; congruence.
      * split; [|done]. intros _. right; right. exists pointer.
        split; [done | by right; left].
      * destruct (JSON_parse doc) as [threadData|] eqn:Hparse.
        -- split.
           ++ cbv zeta. destruct (js_truthy _); [|done]. by destruct (oprop _ _).
           ++ intros [?|[?|(p & [= <-] & [?|[?|(doc' & ? & Hnone)]])]]; congruence.
        -- split; [|done]. intros _. right; right. exists pointer.
           split; [done|]. right; right. by exists doc.
Qed.

(** X5.  A configuration written out field by field in [thread.json] is
    loaded back as it is: the values false, 0 and the empty string are kept,
    not replaced by the defaults. *)
Theorem loadCheckpointConfig_round_trip fs cwd pointer doc c :
  fs (currentFile cwd) = Contents pointer →
  trim pointer ≠ "" →
  fs (threadJsonPath cwd (trim pointer)) = Contents doc →
  JSON_parse doc = Some (thread_document c) →
  loadCheckpointConfig fs cwd = Some (as_loaded c).
Proof.
  intros Hptr Hid Hdoc Hparse.
  rewrite (loadCheckpointConfig_pointer fs cwd pointer Hptr Hid), Hdoc, Hparse.
  unfold as_loaded. by destruct c as [? ? ? ? ? ? ? [[]|]].
Qed.

End WithRuntime.

Lemma loadCheckpointConfig_round_trip_witness :
  loadCheckpointConfig (H:=Fixture.thread_runtime) Fixture.fs_with_section "/work" =
    Some (as_loaded Fixture.config_quiet).
Proof.
  apply (loadCheckpointConfig_round_trip (H:=Fixture.thread_runtime) Fixture.fs_with_section
           "/work" (" t1" +:+ LF) "thread.json of config_quiet" Fixture.config_quiet).
  - vm_compute. reflexivity.
  - vm_compute. discriminate.
  - vm_compute. reflexivity.
  - vm_compute. reflexivity.
Defined.

End LoaderExtras.

(** ** Assistant text, the prompt and the provider clients *)

Module AssessorExtras.
Import Js Sdk SmartContinue Setup JsFacts AssessorFacts.

Lemma omap_nil_iff {A B : Type} (f : A → option B) (l : list A) :
  omap f l = [] ↔ ∀ x, x ∈ l → f x = None.
Proof.
  induction l as [|x l IH]; simpl.
  - split; [intros _ x Hx; by apply elem_of_nil in Hx | done].
  - destruct (f x) eqn:Hfx.
    + split; [done|]. intros Hall. specialize (Hall x (list_elem_of_here _ _)). congruence.
    + rewrite IH. split.
      * intros Hall y Hy. apply elem_of_cons in Hy as [->|Hy]; auto.
      * intros Hall y Hy. apply Hall. by apply list_elem_of_further.
Qed.

Lemma join_singleton_free sep x rest : join sep (x :: rest) = "" → x = "".
Proof.
  destruct rest; simpl; [done|]. destruct x; [done|]. by rewrite append_cons.
Qed.

(** X6.  The text extracted from an event is null exactly when the event
    is not an assistant message or none of its blocks is a text block with
    a non-empty text; a text that is extracted is never empty. *)
Theorem extractAssistantText_none message :
  (extractAssistantText message = None ↔
   ∀ blocks block text,
     message = AssistantMessage (Some blocks) →
     block ∈ blocks →
     block_type block = "text" →
     block_text block = Some text →
     text = "")
  ∧ extractAssistantText message ≠ Some "".
Proof.
  split.
  - destruct message as [[blocks|]| | | |]; simpl; try (split; [done | done]).
    destruct (omap _ blocks) as [|x rest] eqn:Htexts; simpl.
    + split; [|done]. intros _ blocks' block text [= <-] Hin Htype Htext.
      pose proof (proj1 (omap_nil_iff _ _) Htexts block Hin) as Hnone. simpl in Hnone.
      rewrite Htype, Htext in Hnone. simpl in Hnone.
      destruct (truthy text) eqn:Ht; [done | by apply truthy_false].
    + split; [done|]. intros Hall.
      assert (Hx : x ∈ omap
                (λ block, if String.eqb (block_type block) "text"
                          then match block_text block with
                               | Some t => if truthy t then Some t else None
                               | None => None
                               end
                          else None) blocks) by (rewrite Htexts; apply list_elem_of_here).
      apply list_elem_of_omap in Hx as (block & Hin & Hblock).
      destruct (String.eqb (block_type block) "text") eqn:Htype; [|done].
      apply String.eqb_eq in Htype.
      destruct (block_text block) as [t|] eqn:Htext; [|done].
      destruct (truthy t) eqn:Ht; [|done].
      rewrite (Hall blocks block t eq_refl Hin Htype Htext) in Ht. done.
  - destruct message as [content| | | |]; simpl; try done.
    destruct (omap _ _) as [|x rest] eqn:Htexts; simpl; [done|].
    intros [= Hjoin]. apply join_singleton_free in Hjoin. subst x.
    assert (Hx : "" ∈ "" :: rest) by apply list_elem_of_here.
    rewrite <- Htexts in Hx. apply list_elem_of_omap in Hx as (block & _ & Hblock).
    destruct (String.eqb _ _); [|done]. destruct (block_text block) as [t|]; [|done].
    destruct (truthy t) eqn:Ht; [|done]. injection Hblock as ->. done.
Qed.










(** [slice] counts code units, not bytes: a text of three characters of
    three bytes each is kept whole by [slice(-3)], and a cut inside a pair
    leaves its low surrogate, here U+DE00. *)
Example slice_last_code_units :
  slice_last 3 "好好好" = "好好好"
  ∧ slice_last 2 "好好好" = "好好"
  ∧ slice_last 3 "a😀b" = "😀b"
  ∧ slice_last 2 "a😀b" =
      String (Ascii.ascii_of_nat 237)
        (String (Ascii.ascii_of_nat 184) (String (Ascii.ascii_of_nat 128) "b")).
Proof. repeat split; vm_compute; reflexivity. Qed.

Section WithRuntime.
Context `{JsRuntime}.


(** X8.  The three provider clients fail alike: each throws the error
    [fetch] rejects with, throws on a status that is not ok whatever the
    body, and throws on a body that is not JSON; each answers the empty
    string, which is not DONE, when the body is an empty object. *)
Theorem provider_client_failures fetch name caller pc prompt timeout :
  callers fetch name = Some caller →
  (∀ e, (∀ request, fetch request = FetchReject e) → caller pc prompt timeout = Throw e)
  ∧ (∀ status body,
       (∀ request, fetch request = FetchResponse false status body) →
       ∃ e, caller pc prompt timeout = Throw e)
  ∧ (∀ status,
       (∀ request, fetch request = FetchResponse true status None) →
       ∃ e, caller pc prompt timeout = Throw e)
  ∧ (∀ status,
       (∀ request, fetch request = FetchResponse true status (Some (JObj []))) →
       caller pc prompt timeout = Ok "").
Proof.
  unfold callers. intros Hcaller.
  repeat match type of Hcaller with
         | (if ?b then _ else _) = _ => destruct b
         end; try discriminate; injection Hcaller as <-;
    unfold callAnthropic, callOpenAI, callGemini;
    (split; [|split; [|split]]);
    intros;
    match goal with
    | Hfetch : ∀ request, fetch request = _ |- _ => rewrite Hfetch
    end; simpl; eauto.
Qed.

End WithRuntime.

Lemma extractAssistantText_none_witness :
  extractAssistantText (Fixture.assistant_says "") = None.
Proof.
  apply (proj2 (proj1 (extractAssistantText_none (Fixture.assistant_says "")))).
  intros blocks block text [= <-] Hin Htype Htext.
  apply list_elem_of_singleton in Hin. subst block. simpl in Htext. congruence.
Defined.

Lemma provider_client_failures_witness :
  callOpenAI Fixture.times_out
    {| pc_provider := "openai"; pc_apiKey := "sk-test";
       pc_baseUrl := "https://api.openai.com"; pc_model := "gpt-4o-mini" |}
    "Is it done?" 8000 =
    Throw (JsError "TimeoutError" "The operation was aborted due to timeout").
Proof.
  apply (proj1 (provider_client_failures Fixture.times_out "openai"
                  (callOpenAI Fixture.times_out)
                  {| pc_provider := "openai"; pc_apiKey := "sk-test";
                     pc_baseUrl := "https://api.openai.com"; pc_model := "gpt-4o-mini" |}
                  "Is it done?" 8000 eq_refl)).
  reflexivity.
Defined.

End AssessorExtras.

(** ** The session to resume and the environment *)

Module SetupFacts.
Import Js Sdk SmartContinue Setup JsFacts SelectorFacts.

(** The scan stops at the first [--resume]. *)
Lemma resume_argument_first before rest :
  "--resume" ∉ before →
  resume_argument (before ++ "--resume" :: rest) =
    match rest with
    | nextArg :: _ =>
        if negb (startsWith nextArg "-") && includes nextArg "-" then Some nextArg else None
    | [] => None
    end.
Proof.
  induction before as [|arg before IH]; intros Hfirst; simpl.
  - reflexivity.
  - apply not_elem_of_cons in Hfirst as [Hne Hfirst].
    destruct (String.eqb arg "--resume") eqn:Harg.
    + apply String.eqb_eq in Harg. congruence.
    + by apply IH.
Qed.

Lemma resume_argument_found claudeArgs id :
  resume_argument claudeArgs = Some id →
  ∃ before after,
    claudeArgs = before ++ "--resume" :: id :: after ∧ "--resume" ∉ before.
Proof.
  induction claudeArgs as [|arg rest IH]; simpl; [done|].
  destruct (String.eqb arg "--resume") eqn:Harg.
  - apply String.eqb_eq in Harg. subst arg. destruct rest as [|nextArg after]; [done|].
    destruct (_ && _); [|done]. intros [= ->]. exists [], after.
    split; [done | apply not_elem_of_nil].
  - apply String.eqb_neq in Harg. intros Hfound.
    destruct (IH Hfound) as (before & after & -> & Hfirst).
    exists (arg :: before), after. split; [done|].
    apply not_elem_of_cons. split; [congruence | done].
Qed.

(** X9.  The scan of the arguments yields a session id exactly when the
    argument after the first [--resume] does not start with a dash and
    contains one; that argument is the id.  A later [--resume] is never
    looked at. *)
Theorem resume_argument_spec claudeArgs id :
  (resume_argument claudeArgs = Some id ↔
   ∃ before after,
     claudeArgs = before ++ "--resume" :: id :: after
     ∧ ("--resume" ∉ before)
     ∧ startsWith id "-" = false
     ∧ includes id "-" = true)
  ∧ (∀ before nextArg after,
       claudeArgs = before ++ "--resume" :: nextArg :: after →
       "--resume" ∉ before →
       (startsWith nextArg "-" = true ∨ includes nextArg "-" = false) →
       resume_argument claudeArgs = None).
Proof.
  split; [split|].
  - intros Hfound.
    destruct (resume_argument_found claudeArgs id Hfound) as (before & after & -> & Hfirst).
    exists before, after. repeat split; try done;
      rewrite (resume_argument_first before _ Hfirst) in Hfound;
      destruct (startsWith id "-"), (includes id "-"); simpl in Hfound; congruence.
  - intros (before & after & -> & Hfirst & Hdash & Hin).
    rewrite (resume_argument_first before _ Hfirst). by rewrite Hdash, Hin.
  - intros before nextArg after -> Hfirst Hbad.
    rewrite (resume_argument_first before _ Hfirst).
    destruct Hbad as [-> | ->]; [done|]. by rewrite andb_false_r.
Qed.

(** X10.  A session id that is not empty and that [claudeCheckSession]
    accepts is the one resumed, whatever the arguments; and a non-empty id is
    resumed only for that reason or because the scan of the arguments found
    it while the session id was missing, empty or rejected. *)
Theorem start_from_spec check sessionId path claudeArgs :
  (∀ id, sessionId = Some id → id ≠ "" → check id path = true →
         start_from check sessionId path claudeArgs = Some id)
  ∧ (∀ resumed,
       start_from check sessionId path claudeArgs = Some resumed →
       resumed ≠ "" →
       (sessionId = Some resumed ∧ check resumed path = true)
       ∨ (∃ args,
            claudeArgs = Some args
            ∧ resume_argument args = Some resumed
            ∧ (sessionId = None ∨ sessionId = Some ""
               ∨ ∃ id, sessionId = Some id ∧ check id path = false))).
Proof.
  unfold start_from. split.
  - intros id -> Hid Hcheck. apply truthy_true in Hid.
    rewrite Hid, Hcheck. simpl. rewrite Hid. simpl. by destruct claudeArgs.
  - intros resumed Hstart Hne.
    destruct sessionId as [id|].
    + destruct (truthy id) eqn:Hid; simpl in Hstart.
      * destruct (check id path) eqn:Hcheck; simpl in Hstart.
        -- rewrite Hid in Hstart. simpl in Hstart. left.
           destruct claudeArgs; injection Hstart as ->; done.
        -- right. destruct claudeArgs as [args|]; [|done].
           destruct (resume_argument args) as [found|] eqn:Hfound; [|done].
           injection Hstart as ->. exists args. repeat split; try done.
           right; right. by exists id.
      * rewrite Hid in Hstart. simpl in Hstart. apply truthy_false in Hid. subst id.
        right. destruct claudeArgs as [args|]; [|by injection Hstart as <-].
        destruct (resume_argument args) as [found|] eqn:Hfound;
          [|by injection Hstart as <-].
        injection Hstart as ->. exists args. repeat split; try done. by right; left.
    + right. destruct claudeArgs as [args|]; [|done].
      destruct (resume_argument args) as [found|] eqn:Hfound; [|done].
      injection Hstart as ->. exists args. repeat split; try done. by left.
Qed.

Lemma foldl_assign_other (entries : list (string * string)) (env : gmap string string) k :
  k ∉ entries.*1 →
  foldl (λ e entry, <[entry.1 := entry.2]> e) env entries !! k = env !! k.
Proof.
  revert env. induction entries as [|[k' v'] rest IH]; intros env Hk; simpl; [done|].
  simpl in Hk. apply not_elem_of_cons in Hk as [Hne Hk].
  rewrite IH by done. by rewrite lookup_insert_ne.
Qed.

Lemma foldl_assign_entry (entries : list (string * string)) (env : gmap string string) k v :
  NoDup entries.*1 → (k, v) ∈ entries →
  foldl (λ e entry, <[entry.1 := entry.2]> e) env entries !! k = Some v.
Proof.
  revert env. induction entries as [|[k' v'] rest IH]; intros env Hnodup Hin; simpl.
  - by apply elem_of_nil in Hin.
  - simpl in Hnodup. apply NoDup_cons in Hnodup as [Hfresh Hnodup].
    apply elem_of_cons in Hin as [[= -> ->] | Hin].
    + rewrite foldl_assign_other by done. by rewrite lookup_insert_eq.
    + by apply IH.
Qed.

(** X11.  After the environment is prepared, [DISABLE_AUTOUPDATER] is 1
    even when [claudeEnvVars] assigns it another value; every other variable
    has the value [claudeEnvVars] gives it, and the value it had when
    [claudeEnvVars] does not mention it. *)
Theorem apply_env_vars_lookup claudeEnvVars (env : gmap string string) :
  apply_env_vars claudeEnvVars env !! "DISABLE_AUTOUPDATER" = Some "1"
  ∧ (∀ k, k ≠ "DISABLE_AUTOUPDATER" →
       (claudeEnvVars = None → apply_env_vars claudeEnvVars env !! k = env !! k)
       ∧ (∀ entries, claudeEnvVars = Some entries → k ∉ entries.*1 →
                     apply_env_vars claudeEnvVars env !! k = env !! k)
       ∧ (∀ entries v, claudeEnvVars = Some entries → NoDup entries.*1 →
                       (k, v) ∈ entries →
                       apply_env_vars claudeEnvVars env !! k = Some v)).
Proof.
  unfold apply_env_vars. split; [by rewrite lookup_insert_eq|].
  intros k Hk. rewrite lookup_insert_ne by done. repeat split.
  - by intros ->.
  - intros entries -> Hfresh. by apply foldl_assign_other.
  - intros entries v -> Hnodup Hin. by apply foldl_assign_entry.
Qed.



End SetupFacts.

(** ** The session driver, continued *)

Module DriverExtras.
Import Js Sdk SmartContinue ClaudeRemote Setup JsFacts SelectorFacts AssessorFacts DriverFacts.
Import AssessorExtras.

Section Driver.
Context `{JsRuntime} {Mode : Type}.
Context (env : gmap string string).

Implicit Types (st : State (Mode:=Mode)) (input : StepInput (Mode:=Mode)).
Implicit Types (config : option SmartContinueConfig) (message : SDKMessage).

Ltac run_body :=
  unfold handle, buffer_text, on_system, on_result, smart_continue, on_user,
    updateThinking, emit, modify, get, skip, continue_, return_, raise,
    mbind, mret, Body_bind, Body_ret.

Ltac body_cases :=
  repeat (simpl;
          match goal with
          | p : (_ * _)%type |- _ => destruct p
          | |- context [if ?b then _ else _] => destruct b eqn:?
          | |- context [match ?x with Some _ => _ | None => _ end] => destruct x eqn:?
          | |- context [match ?x with Ok _ => _ | Throw _ => _ end] => destruct x eqn:?
          end); simpl.

#[local] Arguments push_recent : simpl never.

(** *** Invariants of the loop *)

(** A property of the state that every run of the body keeps holds when
    the loop ends. *)
Lemma iterate_invariant (I : State → Prop) config events stream_end st :
  (∀ input message st, I st → I (snd (handle env config input message st))) →
  I st → I (snd (iterate env config events stream_end st)).
Proof.
  intros Hstep. revert st. induction events as [|[message input] rest IH]; intros st Hst; simpl.
  - by destruct stream_end.
  - pose proof (Hstep input message st Hst) as Hnext.
    destruct (handle env config input message st) as [[] st']; simpl in *; auto.
Qed.

(** And when the driver exits, if the states before the loop have it and
    the thinking updates keep it. *)
Lemma claudeRemote_invariant (I : State → Prop) parse config
    (initial : option (string * Mode)) events stream_end :
  (∀ input message st, I st → I (snd (handle env config input message st))) →
  (∀ b st, I st → I (snd (updateThinking b st))) →
  (∀ st, before_loop parse initial = inl st ∨ before_loop parse initial = inr st → I st) →
  I (snd (claudeRemote parse env config initial events stream_end)).
Proof.
  intros Hstep Hthinking Hstart. unfold claudeRemote.
  destruct (before_loop parse initial) as [st|st] eqn:Hbefore; [by apply Hstart; left|].
  unfold guarded_loop.
  pose proof (iterate_invariant I config events stream_end st Hstep (Hstart st (or_intror eq_refl)))
    as Hiter.
  destruct (iterate env config events stream_end st) as [completion st1]. simpl in *.
  by apply Hthinking.
Qed.

(** The states in which the loop can be entered or skipped. *)
Lemma before_loop_cases parse (initial : option (string * Mode)) st :
  before_loop parse initial = inl st ∨ before_loop parse initial = inr st →
  autoContinueCount st = 0%nat ∧ smartContinueCount st = 0%nat
  ∧ recentAssistantTexts st = []
  ∧ ∀ a, a ∈ log st →
         a = NextMessage ∨ a = OnSessionReset ∨ a = OnThinkingChange true
         ∨ (∃ text, a = OnCompletionEvent text) ∨ (∃ text, a = Push text).
Proof.
  unfold before_loop. destruct initial as [[message initial_mode]|].
  - destruct (parse message); intros [Heq|Heq]; try discriminate; injection Heq as <-;
      simpl; repeat split; try done;
      intros a Ha;
      repeat (apply elem_of_app in Ha as [Ha|Ha]);
      repeat (apply elem_of_cons in Ha as [->|Ha]); eauto 6;
      by apply elem_of_nil in Ha.
  - intros [Heq|Heq]; [|discriminate]. injection Heq as <-. simpl. repeat split; try done.
    intros a Ha. apply list_elem_of_singleton in Ha. auto.
Qed.





(** *** The forwarding of events *)

Lemma forwarded_snoc actions a :
  forwarded (actions ++ [a]) =
    forwarded actions ++ match a with OnMessage message => [message] | _ => [] end.
Proof. unfold forwarded. rewrite omap_app. by destruct a. Qed.

(** The body forwards its event, once. *)
Lemma handle_forwarded config input message st :
  forwarded (log (snd (handle env config input message st))) =
    forwarded (log st) ++ [message].
Proof.
  destruct message as [content|subtype session_id|subtype num_turns|role content|type];
    run_body; simpl.
  - by rewrite forwarded_snoc.
  - body_cases; rewrite ?forwarded_snoc; simpl; by rewrite ?app_nil_r.
  - unfold auto_continue_gate. body_cases; rewrite ?forwarded_snoc; simpl; by rewrite ?app_nil_r.
  - destruct content as [text|blocks]; simpl; [by rewrite forwarded_snoc|].
    destruct (String.eqb role "user"); simpl; [|by rewrite forwarded_snoc].
    rewrite tool_aborted_state. simpl. by rewrite forwarded_snoc.
  - by rewrite forwarded_snoc.
Qed.

Lemma iterate_forwarded config events stream_end st :
  ∃ k, forwarded (log (snd (iterate env config events stream_end st))) =
         forwarded (log st) ++ take k events.*1
       ∧ (consumes_all env config events st = true → k = length events).
Proof.
  revert st. induction events as [|[message input] rest IH]; intros st; simpl.
  - exists 0%nat. split; [|done]. destruct stream_end; simpl; by rewrite app_nil_r.
  - pose proof (handle_forwarded config input message st) as Hstep.
    destruct (handle env config input message st) as [[] st']; simpl in *.
    + destruct (IH st') as (k & Heq & Hall). exists (S k). rewrite Heq, Hstep.
      rewrite <- app_assoc. split; [done | intros ?; f_equal; auto].
    + destruct (IH st') as (k & Heq & Hall). exists (S k). rewrite Heq, Hstep.
      rewrite <- app_assoc. split; [done | intros ?; f_equal; auto].
    + exists 1%nat. rewrite Hstep. split; [|done]. simpl. by rewrite ?take_0.
    + exists 1%nat. rewrite Hstep. split; [|done]. simpl. by rewrite ?take_0.
Qed.

Lemma updateThinking_forwarded b st :
  forwarded (log (snd (updateThinking b st))) = forwarded (log st).
Proof.
  run_body. simpl. destruct (negb _); simpl; [|done].
  rewrite forwarded_snoc. by rewrite app_nil_r.
Qed.

Lemma before_loop_forwarded parse (initial : option (string * Mode)) st :
  before_loop parse initial = inl st ∨ before_loop parse initial = inr st →
  forwarded (log st) = [].
Proof.
  intros Hst. destruct (before_loop_cases parse initial st Hst) as (_ & _ & _ & Hlog).
  apply omap_nil_iff. intros a Ha.
  destruct (Hlog a Ha) as [-> | [-> | [-> | [[text ->] | [text ->]]]]]; done.
Qed.

(** X14.  The events passed to [onMessage] are the first events of the
    stream, each once and in the order of the stream; they are all the
    events of the stream when the loop takes them all. *)
Theorem events_forwarded parse config (initial : option (string * Mode)) events stream_end :
  let final := snd (claudeRemote parse env config initial events stream_end) in
  (∃ k, forwarded (log final) = take k events.*1)
  ∧ (∀ st, before_loop parse initial = inr st →
           consumes_all env config events st = true →
           forwarded (log final) = events.*1).
Proof.
  cbv zeta. unfold claudeRemote.
  pose proof (before_loop_forwarded parse initial) as Hstart.
  destruct (before_loop parse initial) as [st|st] eqn:Hbefore.
  - split; [|done]. exists 0%nat. rewrite take_0. apply Hstart. by left.
  - unfold guarded_loop.
    destruct (iterate_forwarded config events stream_end st) as (k & Heq & Hall).
    destruct (iterate env config events stream_end st) as [completion st1]. simpl in *.
    rewrite updateThinking_forwarded, Heq, (Hstart st) by auto. simpl. split.
    + by exists k.
    + intros st' [= <-] Hconsumed. rewrite (Hall Hconsumed).
      rewrite <- (length_fmap fst events). apply take_ge. done.
Qed.

(** *** The second gate *)

(** A result message that passes the first gate, in terms of the tests of
    lines 225-230. *)
Lemma handle_smart_gate cfg input subtype num_turns st isDone :
  auto_continue_gate subtype num_turns st = false →
  assessTaskCompletion env (in_fetch input) (recentAssistantTexts st) cfg = Ok isDone →
  let r := handle env (Some cfg) input (ResultMessage subtype num_turns) st in
  let asks :=
    enabled cfg && negb (isCompactCommand st)
    && (Z.of_nat (smartContinueCount st) <? maxRetries cfg)
    && negb (some (λ t, includes t (completionMarker cfg)) (recentAssistantTexts st))
    && String.eqb subtype "success" && (1 <? num_turns) in
  let finish :=
    (if isCompactCommand st then [OnCompletionEvent "Compaction completed"] else [])
      ++ [OnReady; NextMessage]
      ++ match in_next input with
         | None => [End]
         | Some (next, _) => [Push next]
         end in
  log (snd r) =
    log st ++ [OnMessage (ResultMessage subtype num_turns)]
      ++ (if thinking st then [OnThinkingChange false] else [])
      ++ (if asks then [Assess (recentAssistantTexts st)] else [])
      ++ (if asks && negb isDone
          then [Push (continueMessage cfg); OnThinkingChange true]
          else finish)
  ∧ fst r = (if asks && negb isDone then Continue
             else match in_next input with
                  | None => Return
                  | Some _ => Next ()
                  end)
  ∧ smartContinueCount (snd r) =
      (if asks && negb isDone then S (smartContinueCount st) else smartContinueCount st).
Proof.
  intros Hgate Hdone. run_body. unfold auto_continue_gate, push_recent in *. simpl.
  destruct (thinking st) eqn:Hthinking; simpl; rewrite Hgate; simpl;
    destruct (isCompactCommand st) eqn:Hcompact; simpl; rewrite ?Hcompact; simpl;
    destruct (enabled cfg),
      (Z.of_nat (smartContinueCount st) <? maxRetries cfg),
      (some (λ t, includes t (completionMarker cfg)) (recentAssistantTexts st)),
      (String.eqb subtype "success"), (1 <? num_turns); simpl;
    rewrite ?Hdone; simpl;
    destruct isDone; simpl; rewrite ?Hcompact, ?Hthinking; simpl;
    destruct (in_next input) as [[next next_mode]|]; simpl;
    rewrite <- ?app_assoc; done.
Qed.

Lemma some_false {A : Type} (p : A → bool) (l : list A) :
  some p l = false ↔ ∀ x, x ∈ l → p x = false.
Proof.
  split.
  - intros Hnone x Hx. destruct (p x) eqn:Hpx; [|done].
    rewrite <- Hnone. symmetry. apply some_spec. by exists x.
  - intros Hall. destruct (some p l) eqn:Hsome; [|done].
    apply some_spec in Hsome as (x & Hx & Hpx). rewrite (Hall x Hx) in Hpx. done.
Qed.

Lemma smart_gate_asks_spec cfg subtype num_turns st :
  enabled cfg && negb (isCompactCommand st)
  && (Z.of_nat (smartContinueCount st) <? maxRetries cfg)
  && negb (some (λ t, includes t (completionMarker cfg)) (recentAssistantTexts st))
  && String.eqb subtype "success" && (1 <? num_turns) = true ↔
  enabled cfg = true ∧ isCompactCommand st = false
  ∧ Z.of_nat (smartContinueCount st) < maxRetries cfg
  ∧ (∀ text, text ∈ recentAssistantTexts st → includes text (completionMarker cfg) = false)
  ∧ subtype = "success" ∧ 1 < num_turns.
Proof.
  rewrite !andb_true_iff, !negb_true_iff, Z.ltb_lt, Z.ltb_lt, String.eqb_eq, some_false.
  tauto.
Qed.

(** X15.  On a result message that passes the first gate with a checkpoint
    configuration present, the assessor is called exactly when the
    configuration is enabled, no compaction is in flight, the smart-continue
    counter is below [maxRetries], no buffered text contains the marker, the
    subtype is success and there was more than one turn.  If it is called and
    answers that the task is not done, the configured message is pushed, the
    counter is one more and the body ends with [continue]; if it answers done,
    or is not called, the turn completes and the counter is unchanged. *)
Theorem smart_continue_gate cfg input subtype num_turns st :
  ¬ (subtype = "success" ∧ num_turns ≤ 1 ∧ isCompactCommand st = false
     ∧ (autoContinueCount st < 3)%nat) →
  let r := handle env (Some cfg) input (ResultMessage subtype num_turns) st in
  let eligible :=
    enabled cfg = true ∧ isCompactCommand st = false
    ∧ Z.of_nat (smartContinueCount st) < maxRetries cfg
    ∧ (∀ text, text ∈ recentAssistantTexts st → includes text (completionMarker cfg) = false)
    ∧ subtype = "success" ∧ 1 < num_turns in
  let verdict := assessTaskCompletion env (in_fetch input) (recentAssistantTexts st) cfg in
  let base :=
    [OnMessage (ResultMessage subtype num_turns)]
      ++ (if thinking st then [OnThinkingChange false] else []) in
  let finish :=
    (if isCompactCommand st then [OnCompletionEvent "Compaction completed"] else [])
      ++ [OnReady; NextMessage]
      ++ match in_next input with
         | None => [End]
         | Some (next, _) => [Push next]
         end in
  let completes :=
    fst r = match in_next input with
            | None => Return
            | Some _ => Next ()
            end
    ∧ smartContinueCount (snd r) = smartContinueCount st in
  (eligible ∧ verdict = Ok false
   ∧ new_actions st (snd r) =
       base ++ [Assess (recentAssistantTexts st); Push (continueMessage cfg);
                OnThinkingChange true]
   ∧ fst r = Continue
   ∧ smartContinueCount (snd r) = S (smartContinueCount st))
  ∨ (eligible ∧ verdict = Ok true
     ∧ new_actions st (snd r) = base ++ [Assess (recentAssistantTexts st)] ++ finish
     ∧ completes)
  ∨ (¬ eligible ∧ new_actions st (snd r) = base ++ finish ∧ completes).
Proof.
  intros Hno. cbv zeta.
  assert (Hgate : auto_continue_gate subtype num_turns st = false).
  { rewrite <- auto_continue_gate_spec in Hno. by destruct (auto_continue_gate _ _ _). }
  destruct (assessTaskCompletion_total env (in_fetch input) (recentAssistantTexts st) cfg)
    as [isDone Hdone].
  destruct (handle_smart_gate cfg input subtype num_turns st isDone Hgate Hdone)
    as (Hlog & Hflow & Hcount).
  apply new_actions_app in Hlog. rewrite Hlog, Hflow, Hcount, Hdone.
  pose proof (smart_gate_asks_spec cfg subtype num_turns st) as Hasks.
  destruct (enabled cfg && negb (isCompactCommand st)
            && (Z.of_nat (smartContinueCount st) <? maxRetries cfg)
            && negb (some (λ t, includes t (completionMarker cfg)) (recentAssistantTexts st))
            && String.eqb subtype "success" && (1 <? num_turns)).
  - destruct isDone; simpl.
    + right; left. destruct (thinking st); repeat split; try (by apply Hasks); done.
    + left. destruct (thinking st); repeat split; try (by apply Hasks); done.
  - right; right. simpl. split; [|split; [|done]].
    + intros Heligible. by apply Hasks in Heligible.
    + by destruct (thinking st).
Qed.

Lemma detectProvider_no_credentials (cfg : SmartContinueConfig) :
  (∀ p, credential env p = "") → detectProvider env cfg = None.
Proof.
  intros Hall.
  rewrite detectProvider_auto.
  - cbn [List.find].
    by rewrite (proj2 (truthy_false _) (Hall anthropic)), (proj2 (truthy_false _) (Hall openai)),
      (proj2 (truthy_false _) (Hall gemini)).
  - unfold explicit_choice. destruct (provider cfg) as [p|]; [|done].
    by apply truthy_false.
Qed.

(** X16.  With no credential in the environment the assessment cannot be
    made and counts as not done: every turn for which the assessor is called
    is continued with the configured message, whatever the network would
    have answered. *)
Theorem no_credentials_continue cfg input st num_turns :
  (∀ p, credential env p = "") →
  enabled cfg = true →
  isCompactCommand st = false →
  Z.of_nat (smartContinueCount st) < maxRetries cfg →
  (∀ text, text ∈ recentAssistantTexts st → includes text (completionMarker cfg) = false) →
  1 < num_turns →
  let r := handle env (Some cfg) input (ResultMessage "success" num_turns) st in
  fst r = Continue
  ∧ smartContinueCount (snd r) = S (smartContinueCount st)
  ∧ new_actions st (snd r) =
      [OnMessage (ResultMessage "success" num_turns)]
        ++ (if thinking st then [OnThinkingChange false] else [])
        ++ [Assess (recentAssistantTexts st); Push (continueMessage cfg);
            OnThinkingChange true].
Proof.
  intros Hnone Henabled Hcompact Hbelow Hmarker Hturns. cbv zeta.
  assert (Hgate : auto_continue_gate "success" num_turns st = false).
  { destruct (auto_continue_gate _ _ _) eqn:Hgate; [|done].
    apply auto_continue_gate_spec in Hgate. lia. }
  assert (Hdone : assessTaskCompletion env (in_fetch input) (recentAssistantTexts st) cfg
                  = Ok false).
  { unfold assessTaskCompletion. by rewrite detectProvider_no_credentials. }
  destruct (handle_smart_gate cfg input "success" num_turns st false Hgate Hdone)
    as (Hlog & Hflow & Hcount).
  apply new_actions_app in Hlog. rewrite Hlog, Hflow, Hcount.
  rewrite (proj2 (smart_gate_asks_spec cfg "success" num_turns st)) by done.
  simpl. by destruct (thinking st).
Qed.

(** *** Compaction *)

Lemma handle_compaction config input subtype num_turns st :
  isCompactCommand st = true →
  let r := handle env config input (ResultMessage subtype num_turns) st in
  log (snd r) =
    log st ++ [OnMessage (ResultMessage subtype num_turns)]
      ++ (if thinking st then [OnThinkingChange false] else [])
      ++ [OnCompletionEvent "Compaction completed"; OnReady; NextMessage]
      ++ match in_next input with
         | None => [End]
         | Some (next, _) => [Push next]
         end
  ∧ fst r = match in_next input with
            | None => Return
            | Some _ => Next ()
            end
  ∧ isCompactCommand (snd r) = false
  ∧ autoContinueCount (snd r) = 0%nat
  ∧ smartContinueCount (snd r) = smartContinueCount st.
Proof.
  intros Hcompact. run_body. unfold auto_continue_gate, push_recent. simpl.
  destruct (thinking st) eqn:Hthinking; simpl; rewrite ?Hcompact; simpl;
    destruct (String.eqb subtype "success"), (num_turns <=? 1); simpl;
    destruct config as [cfg|]; simpl; rewrite ?Hcompact; simpl;
    try (destruct (enabled cfg); simpl); rewrite ?Hcompact; simpl;
    destruct (in_next input) as [[next next_mode]|]; simpl;
    rewrite <- ?app_assoc; done.
Qed.

Lemma handle_compaction_off config input message st :
  isCompactCommand st = false →
  isCompactCommand (snd (handle env config input message st)) = false.
Proof.
  intros Hcompact.
  destruct message as [content|subtype session_id|subtype num_turns|role content|type];
    run_body; simpl; try (body_cases; done).
  destruct content as [text|blocks]; simpl; [done|].
  destruct (String.eqb role "user"); simpl; [|done].
  by rewrite tool_aborted_state.
Qed.

(** X17.  While a compaction command is in flight neither gate fires: a
    result message completes the turn, the caller is told that the
    compaction is completed, and the command is over.  No event starts a
    compaction again, so the caller is told once. *)
Theorem compaction_turn config input message st :
  let r := handle env config input message st in
  (∀ subtype num_turns,
     message = ResultMessage subtype num_turns →
     isCompactCommand st = true →
     new_actions st (snd r) =
       [OnMessage (ResultMessage subtype num_turns)]
         ++ (if thinking st then [OnThinkingChange false] else [])
         ++ [OnCompletionEvent "Compaction completed"; OnReady; NextMessage]
         ++ match in_next input with
            | None => [End]
            | Some (next, _) => [Push next]
            end
     ∧ fst r ≠ Continue
     ∧ isCompactCommand (snd r) = false
     ∧ smartContinueCount (snd r) = smartContinueCount st)
  ∧ (isCompactCommand st = false → isCompactCommand (snd r) = false).
Proof.
  cbv zeta. split.
  - intros subtype num_turns -> Hcompact.
    destruct (handle_compaction config input subtype num_turns st Hcompact)
      as (Hlog & Hflow & Hoff & _ & Hcount).
    apply new_actions_app in Hlog. rewrite Hlog, Hflow. repeat split; try done.
    by destruct (in_next input).
  - apply handle_compaction_off.
Qed.

(** *** Aborted tools *)

Lemma tool_aborted_spec input blocks st :
  fst (tool_aborted input blocks st) = Return ↔
  ∃ block id,
    block ∈ blocks ∧ block_type block = "tool_result"
    ∧ block_tool_use_id block = Some id ∧ id ≠ "" ∧ in_isAborted input id = true.
Proof.
  induction blocks as [|c rest IH]; simpl.
  - split; [done|]. intros (block & id & Hin & _). by apply elem_of_nil in Hin.
  - destruct (String.eqb (block_type c) "tool_result") eqn:Htype; simpl.
    + destruct (block_tool_use_id c) as [id|] eqn:Hid.
      * destruct (truthy id && in_isAborted input id) eqn:Haborted.
        -- split; [|done]. intros _. apply andb_true_iff in Haborted as [Hne Hab].
           exists c, id. apply String.eqb_eq in Htype. apply truthy_true in Hne.
           repeat split; try done. apply list_elem_of_here.
        -- rewrite IH. split.
           ++ intros (block & id' & Hin & Hrest). exists block, id'.
              split; [by apply list_elem_of_further | done].
           ++ intros (block & id' & Hin & Hty & Hid' & Hne & Hab).
              apply elem_of_cons in Hin as [-> | Hin]; [|by exists block, id'].
              rewrite Hid in Hid'. injection Hid' as <-.
              apply truthy_true in Hne. rewrite Hne, Hab in Haborted. done.
      * rewrite IH. split.
        -- intros (block & id' & Hin & Hrest). exists block, id'.
           split; [by apply list_elem_of_further | done].
        -- intros (block & id' & Hin & Hty & Hid' & Hrest).
           apply elem_of_cons in Hin as [-> | Hin]; [congruence | by exists block, id'].
    + rewrite IH. apply String.eqb_neq in Htype. split.
      * intros (block & id' & Hin & Hrest). exists block, id'.
        split; [by apply list_elem_of_further | done].
      * intros (block & id' & Hin & Hty & Hrest).
        apply elem_of_cons in Hin as [-> | Hin]; [congruence | by exists block, id'].
Qed.

(** X18.  A user message is forwarded and changes nothing else.  The
    driver returns on it exactly when its role is user and one of its
    content blocks is a tool result whose id is not empty and is reported
    aborted by the caller; otherwise the loop goes on. *)
Theorem tool_abort_returns config input role content st :
  let r := handle env config input (UserMessage role content) st in
  snd r = add_log (OnMessage (UserMessage role content)) st
  ∧ (fst r = Return ↔
     role = "user"
     ∧ ∃ blocks block id,
         content = ContentBlocks blocks ∧ block ∈ blocks
         ∧ block_type block = "tool_result"
         ∧ block_tool_use_id block = Some id ∧ id ≠ "" ∧ in_isAborted input id = true)
  ∧ (fst r = Return ∨ fst r = Next ()).
Proof.
  cbv zeta. run_body. unfold push_recent. simpl.
  destruct content as [text|blocks]; simpl.
  - split; [by destruct st|]. split; [|by right].
    split; [done|]. by intros (_ & ? & ? & ? & ? & _).
  - destruct (String.eqb role "user") eqn:Hrole; simpl.
    + apply String.eqb_eq in Hrole. rewrite tool_aborted_state.
      split; [by destruct st|]. split.
      * rewrite tool_aborted_spec. split.
        -- intros (block & id & Hrest). split; [done|]. by exists blocks, block, id.
        -- intros (_ & blocks' & block & id & [= <-] & Hrest). by exists block, id.
      * destruct (tool_aborted_flow input blocks
                    (add_log (OnMessage (UserMessage role (ContentBlocks blocks)))
                       (set_recentAssistantTexts (recentAssistantTexts st) st))); auto.
    + apply String.eqb_neq in Hrole.
      split; [by destruct st|]. split; [|by right].
      split; [done|]. by intros (? & _).
Qed.

(** *** The end of the outbound queue *)

Lemma open_snoc (actions : list Action) a : a ≠ End → End ∉ actions → End ∉ actions ++ [a].
Proof.
  intros Hne Hopen Hin. apply elem_of_app in Hin as [Hin|Hin]; [done|].
  apply list_elem_of_singleton in Hin. congruence.
Qed.

Ltac still_open := repeat (apply open_snoc; [discriminate|]); assumption.

(** The body closes the queue only as its last action, on a return, with
    the thinking indicator off. *)
Lemma handle_end config input message st :
  End ∉ log st →
  let r := handle env config input message st in
  End ∉ log (snd r)
  ∨ (fst r = Return ∧ thinking (snd r) = false
     ∧ ∃ earlier, log (snd r) = earlier ++ [End] ∧ End ∉ earlier).
Proof.
  intros Hopen. cbv zeta.
  destruct message as [content|subtype session_id|subtype num_turns|role content|type];
    run_body; simpl.
  - left. still_open.
  - left. body_cases; still_open.
  - unfold auto_continue_gate.
    destruct (thinking st) eqn:Hthinking; body_cases;
      first [ left; still_open
            | right; split; [reflexivity|]; split; [done|];
              eexists; split; [reflexivity|]; still_open ].
  - left. destruct content as [text|blocks]; simpl; [still_open|].
    destruct (String.eqb role "user"); simpl; [|still_open].
    rewrite tool_aborted_state. simpl. still_open.
  - left. still_open.
Qed.

Lemma iterate_end config events stream_end st :
  End ∉ log st →
  let r := iterate env config events stream_end st in
  End ∉ log (snd r)
  ∨ (fst r = Returned ∧ thinking (snd r) = false
     ∧ ∃ earlier, log (snd r) = earlier ++ [End] ∧ End ∉ earlier).
Proof.
  revert st. induction events as [|[message input] rest IH]; intros st Hopen; simpl.
  - left. by destruct stream_end.
  - pose proof (handle_end config input message st Hopen) as Hstep. cbv zeta in Hstep.
    destruct (handle env config input message st) as [[] st']; simpl in *;
      destruct Hstep as [Hstill | (Hflow & Hquiet & Hlast)]; try discriminate; auto.
Qed.

Lemma end_in_middle (before after : list Action) : End ∈ before ++ End :: after.
Proof. apply elem_of_app. right. apply list_elem_of_here. Qed.

(** X19.  When the driver has closed the outbound queue, that was its last
    action: nothing is pushed, forwarded or notified after [messages.end()],
    and the driver returns. *)
Theorem end_is_last parse config (initial : option (string * Mode)) events stream_end :
  let r := claudeRemote parse env config initial events stream_end in
  ∀ before after, log (snd r) = before ++ End :: after → after = [] ∧ fst r = Returned.
Proof.
  cbv zeta. unfold claudeRemote. intros before after.
  pose proof (before_loop_cases parse initial) as Hstart.
  assert (Hopen : ∀ st, before_loop parse initial = inl st ∨ before_loop parse initial = inr st →
                        End ∉ log st).
  { intros st Hst Hin. destruct (Hstart st Hst) as (_ & _ & _ & Hlog).
    destruct (Hlog End Hin) as [? | [? | [? | [[text ?] | [text ?]]]]]; done. }
  destruct (before_loop parse initial) as [st|st] eqn:Hbefore.
  - simpl. intros Hlog. destruct (Hopen st (or_introl eq_refl)).
    rewrite Hlog. apply end_in_middle.
  - unfold guarded_loop.
    pose proof (iterate_end config events stream_end st (Hopen st (or_intror eq_refl))) as Hiter.
    cbv zeta in Hiter.
    destruct (iterate env config events stream_end st) as [completion st1] eqn:Hrun.
    simpl in *. intros Hlog.
    destruct Hiter as [Hstill | (-> & Hquiet & earlier & Hlast & Hearlier)].
    + exfalso. revert Hlog. run_body. simpl.
      destruct (negb (eqb (thinking st1) false)); simpl; intros Hlog.
      * apply (open_snoc (log st1) (OnThinkingChange false)); [done | done |].
        rewrite Hlog. apply end_in_middle.
      * apply Hstill. rewrite Hlog. apply end_in_middle.
    + revert Hlog. run_body. simpl. rewrite Hquiet. simpl. rewrite Hlast. intros Hlog.
      split; [|done].
      destruct after as [|a after _] using rev_ind; [done|]. exfalso.
      rewrite app_comm_cons, app_assoc in Hlog. apply app_inj_tail in Hlog as [-> _].
      apply Hearlier, end_in_middle.
Qed.

(** *** The thinking notifications *)

Ltac body_cases_with Hknown :=
  repeat (simpl; rewrite ?Hknown; simpl;
          match goal with
          | p : (_ * _)%type |- _ => destruct p
          | |- context [if ?b then _ else _] => destruct b eqn:?
          | |- context [match ?x with Some _ => _ | None => _ end] => destruct x eqn:?
          | |- context [match ?x with Ok _ => _ | Throw _ => _ end] => destruct x eqn:?
          end); simpl; rewrite ?Hknown; simpl.

Lemma notifications_snoc actions a :
  notifications (actions ++ [a]) =
    notifications actions ++ match a with OnThinkingChange b => [b] | _ => [] end.
Proof. unfold notifications. rewrite omap_app. by destruct a. Qed.

Lemma alternates_app first values extra :
  alternates first values = true →
  alternates (negb (default (negb first) (last values))) extra = true →
  alternates first (values ++ extra) = true.
Proof.
  revert first. induction values as [|b rest IH]; intros first; simpl.
  - intros _. by rewrite negb_involutive.
  - intros Hboth Hextra. apply andb_true_iff in Hboth as [Hb Hrest].
    rewrite Hb. simpl. apply IH; [done|].
    destruct rest as [|c rest'].
    + simpl in *. apply eqb_prop in Hb. subst b. by rewrite negb_involutive.
    + change (last (b :: c :: rest')) with (last (c :: rest')) in Hextra.
      destruct (last (c :: rest')) as [y|] eqn:Hlast; [done|].
      by apply last_None in Hlast.
Qed.

Lemma last_app_default (d : bool) (values extra : list bool) :
  default d (last (values ++ extra)) = default (default d (last values)) (last extra).
Proof.
  destruct extra as [|x extra _] using rev_ind.
  - by rewrite app_nil_r.
  - by rewrite app_assoc, !last_snoc.
Qed.

(** The notifications of one event alternate, beginning with the opposite
    of the current value, and the variable follows them. *)
Lemma handle_notifications config input message st :
  ∃ extra,
    notifications (log (snd (handle env config input message st))) =
      notifications (log st) ++ extra
    ∧ alternates (negb (thinking st)) extra = true
    ∧ thinking (snd (handle env config input message st)) = default (thinking st) (last extra).
Proof.
  destruct message as [content|subtype session_id|subtype num_turns|role content|type];
    run_body; unfold auto_continue_gate; simpl.
  4: { destruct content as [text|blocks]; simpl;
         [|destruct (String.eqb role "user"); simpl; rewrite ?tool_aborted_state; simpl].
       all: exists []; rewrite notifications_snoc, app_nil_r; simpl;
         by destruct (thinking st). }
  all: destruct (thinking st) eqn:Hthinking;
    body_cases_with Hthinking;
    match goal with
    | |- ∃ extra, ?told = _ ∧ _ =>
        let Htold := fresh "Htold" in
        remember told as all_told eqn:Htold;
        rewrite ?notifications_snoc in Htold; simpl in Htold;
        rewrite ?app_nil_r, <- ?app_assoc in Htold; subst all_told
    end;
    (eexists; split;
     [ first [reflexivity | symmetry; apply app_nil_r]
     | simpl; rewrite ?Hthinking; done ]).
Qed.

Lemma handle_paced config input message st :
  paced st → paced (snd (handle env config input message st)).
Proof.
  intros [Halt Hlast]. unfold paced.
  destruct (handle_notifications config input message st) as (extra & -> & Hextra & ->).
  split.
  - apply alternates_app; [done|]. simpl. by rewrite <- Hlast.
  - by rewrite last_app_default, <- Hlast.
Qed.

Lemma updateThinking_paced b st : paced st → paced (snd (updateThinking b st)).
Proof.
  intros [Halt Hlast]. unfold paced. run_body. simpl.
  destruct (negb (eqb (thinking st) b)) eqn:Hchange; simpl; [|done].
  rewrite notifications_snoc. simpl. split.
  - apply alternates_app; [done|]. simpl. rewrite <- Hlast.
    destruct (thinking st), b; done.
  - by rewrite last_snoc.
Qed.

Lemma before_loop_paced parse (initial : option (string * Mode)) st :
  before_loop parse initial = inl st ∨ before_loop parse initial = inr st → paced st.
Proof.
  unfold before_loop. destruct initial as [[message initial_mode]|].
  - destruct (parse message); intros [Heq|Heq]; try discriminate; injection Heq as <-; done.
  - intros [Heq|Heq]; [by injection Heq as <- | discriminate].
Qed.

(** X20.  The caller is told of the thinking state only when it changes:
    the values passed to [onThinkingChange] during a session alternate,
    beginning with active. *)
Theorem notifications_alternate parse config (initial : option (string * Mode))
    events stream_end :
  alternates true
    (notifications (log (snd (claudeRemote parse env config initial events stream_end)))) = true.
Proof.
  apply (claudeRemote_invariant paced parse config initial events stream_end).
  - apply handle_paced.
  - apply updateThinking_paced.
  - apply before_loop_paced.
Qed.

(** *** When the assessor is left alone *)

Lemma quiet_snoc (actions : list Action) a :
  (∀ texts, a ≠ Assess texts) →
  (∀ texts, Assess texts ∉ actions) →
  ∀ texts, Assess texts ∉ actions ++ [a].
Proof.
  intros Hne Hquiet texts Hin. apply elem_of_app in Hin as [Hin|Hin]; [by apply (Hquiet texts)|].
  apply list_elem_of_singleton in Hin. by apply (Hne texts).
Qed.

Ltac still_quiet := repeat (apply quiet_snoc; [discriminate|]); assumption.

Lemma handle_quiet config input message st :
  config = None ∨ (∃ cfg, config = Some cfg ∧ enabled cfg = false) →
  (∀ texts, Assess texts ∉ log st) →
  ∀ texts, Assess texts ∉ log (snd (handle env config input message st)).
Proof.
  intros Hoff Hquiet.
  destruct message as [content|subtype session_id|subtype num_turns|role content|type];
    run_body; simpl.
  - still_quiet.
  - body_cases; still_quiet.
  - unfold auto_continue_gate.
    destruct Hoff as [-> | (cfg & -> & Hoff)].
    + body_cases; still_quiet.
    + body_cases_with Hoff; still_quiet.
  - destruct content as [text|blocks]; simpl; [still_quiet|].
    destruct (String.eqb role "user"); simpl; [|still_quiet].
    rewrite tool_aborted_state. simpl. still_quiet.
  - still_quiet.
Qed.

Lemma handle_buffer_unused input message st :
  recentAssistantTexts st = [] →
  recentAssistantTexts (snd (handle env None input message st)) = [].
Proof.
  intros Hempty. rewrite handle_buffer. unfold push_recent.
  by destruct (extractAssistantText message).
Qed.

(** X21.  Without a checkpoint configuration, or with one that is not
    enabled, the assessor is never called during a session, so no request is
    sent to a provider; without a configuration the buffer of assistant
    texts stays empty as well. *)
Theorem assessor_left_alone parse config (initial : option (string * Mode)) events stream_end :
  let final := snd (claudeRemote parse env config initial events stream_end) in
  (config = None ∨ (∃ cfg, config = Some cfg ∧ enabled cfg = false) →
   ∀ texts, Assess texts ∉ log final)
  ∧ (config = None → recentAssistantTexts final = []).
Proof.
  cbv zeta. split.
  - intros Hoff.
    apply (claudeRemote_invariant (λ st, ∀ texts, Assess texts ∉ log st)).
    + intros input message st. by apply handle_quiet.
    + intros b st Hquiet. run_body. simpl. destruct (negb _); simpl; [still_quiet | done].
    + intros st Hst texts Hin. destruct (before_loop_cases parse initial st Hst) as (_ & _ & _ & Hlog).
      destruct (Hlog _ Hin) as [? | [? | [? | [[text ?] | [text ?]]]]]; done.
  - intros ->.
    apply (claudeRemote_invariant (λ st, recentAssistantTexts st = [])).
    + apply handle_buffer_unused.
    + intros b st. by rewrite updateThinking_buffer.
    + intros st Hst. by destruct (before_loop_cases parse initial st Hst) as (_ & _ & -> & _).
Qed.

(** *** One message per turn *)

Lemma pushed_snoc actions a :
  pushed (actions ++ [a]) =
    pushed actions ++ match a with Push content => [content] | _ => [] end.
Proof. unfold pushed. rewrite omap_app. by destruct a. Qed.

(** X22.  The driver queues one message per turn.  An event that is not a
    result pushes nothing.  A result pushes exactly one message when the loop
    goes on: the fixed or the configured continuation message when the body
    ends with [continue], leaving thinking active, and the caller's next
    message otherwise, leaving thinking inactive; it pushes nothing when the
    driver returns, which happens when the caller has no next message. *)
Theorem one_push_per_turn config input message st :
  let r := handle env config input message st in
  ∃ contents,
    pushed (log (snd r)) = pushed (log st) ++ contents
    ∧ match message, fst r with
      | ResultMessage _ _, Continue =>
          thinking (snd r) = true
          ∧ (contents = [AUTO_CONTINUE_MESSAGE]
             ∨ ∃ cfg, config = Some cfg ∧ contents = [continueMessage cfg])
      | ResultMessage _ _, Next _ =>
          thinking (snd r) = false
          ∧ ∃ next next_mode, in_next input = Some (next, next_mode) ∧ contents = [next]
      | ResultMessage _ _, Return =>
          thinking (snd r) = false ∧ in_next input = None ∧ contents = []
      | _, Raise _ => False
      | _, _ => contents = []
      end.
Proof.
  cbv zeta.
  destruct message as [content|subtype session_id|subtype num_turns|role content|type];
    run_body; unfold auto_continue_gate; simpl.
  4: { destruct content as [text|blocks]; simpl;
         [|destruct (String.eqb role "user"); simpl; rewrite ?tool_aborted_state; simpl].
       1, 3: exists []; by rewrite pushed_snoc, app_nil_r.
       exists []. rewrite pushed_snoc, app_nil_r. split; [done|].
       match goal with
       | |- context [tool_aborted input blocks ?s] =>
           destruct (tool_aborted_flow input blocks s) as [-> | ->]; done
       end. }
  3: { destruct config as [cfg|];
         [destruct (assessTaskCompletion_total env (in_fetch input)
                      (push_recent (Some cfg) (ResultMessage subtype num_turns)
                         (recentAssistantTexts st)) cfg) as [isDone HisDone]|];
         destruct (thinking st) eqn:Hthinking;
         body_cases_with Hthinking;
         try congruence;
         match goal with
         | |- ∃ contents, ?sent = _ ∧ _ =>
             let Hsent := fresh "Hsent" in
             remember sent as all_sent eqn:Hsent;
             rewrite ?pushed_snoc in Hsent; simpl in Hsent;
             rewrite ?app_nil_r, <- ?app_assoc in Hsent; subst all_sent
         end;
         (eexists; split;
          [ first [reflexivity | symmetry; apply app_nil_r]
          | simpl; rewrite ?Hthinking; eauto 8 ]). }
  all: body_cases;
    match goal with
    | |- ∃ contents, ?sent = _ ∧ _ =>
        let Hsent := fresh "Hsent" in
        remember sent as all_sent eqn:Hsent;
        rewrite ?pushed_snoc in Hsent; simpl in Hsent;
        rewrite ?app_nil_r, <- ?app_assoc in Hsent; subst all_sent
    end;
    (eexists; split; [ first [reflexivity | symmetry; apply app_nil_r] | done ]).
Qed.

End Driver.

Lemma smart_continue_gate_witness :
  fst (handle Fixture.env_openai_only (Some DEFAULT_SMART_CONTINUE)
         (Fixture.no_next (Fixture.openai_answers "NOT_DONE"))
         (ResultMessage "success" 5) (Fixture.thinking_with ["working on it"] 2)) = Continue.
Proof.
  destruct (smart_continue_gate Fixture.env_openai_only DEFAULT_SMART_CONTINUE
              (Fixture.no_next (Fixture.openai_answers "NOT_DONE")) "success" 5
              (Fixture.thinking_with ["working on it"] 2))
    as [(_ & _ & _ & Hflow & _) | [(_ & Hverdict & _) | (Hnot & _)]].
  - intros (_ & Hturns & _). lia.
  - exact Hflow.
  - vm_compute in Hverdict. discriminate.
  - exfalso. apply Hnot. repeat split; try (simpl; lia).
    intros text Hin. apply list_elem_of_singleton in Hin. subst text.
    vm_compute. reflexivity.
Defined.

Lemma no_credentials_continue_witness :
  fst (handle ∅ (Some DEFAULT_SMART_CONTINUE)
         (Fixture.no_next (Fixture.openai_answers "DONE"))
         (ResultMessage "success" 5) (Fixture.thinking_with ["working on it"] 0)) = Continue.
Proof.
  apply (no_credentials_continue ∅ DEFAULT_SMART_CONTINUE
           (Fixture.no_next (Fixture.openai_answers "DONE"))
           (Fixture.thinking_with ["working on it"] 0) 5).
  - intros []; vm_compute; reflexivity.
  - reflexivity.
  - reflexivity.
  - simpl. lia.
  - intros text Hin. apply list_elem_of_singleton in Hin. subst text.
    vm_compute. reflexivity.
  - lia.
Defined.

Lemma end_is_last_witness :
  fst (claudeRemote (λ _, no_command) Fixture.env_openai_only None (Some ("do the task", tt))
         [(ResultMessage "success" 4, Fixture.no_next Fixture.times_out);
          (Fixture.assistant_says "more", Fixture.no_next Fixture.times_out)]
         (Failed (JsError "Error" "socket hang up"))) = Returned.
Proof.
  apply (end_is_last Fixture.env_openai_only (λ _, no_command) None (Some ("do the task", tt))
           [(ResultMessage "success" 4, Fixture.no_next Fixture.times_out);
            (Fixture.assistant_says "more", Fixture.no_next Fixture.times_out)]
           (Failed (JsError "Error" "socket hang up"))
           [NextMessage; Push "do the task"; OnThinkingChange true;
            OnMessage (ResultMessage "success" 4); OnThinkingChange false;
            OnReady; NextMessage]
           []).
  vm_compute. reflexivity.
Defined.

End DriverExtras.
